(** * mpcoord: the discovery-driven tunnel coordinator (mpcoord.go)

    A shallow embedding of the coordinator's control logic.  The Go
    functions become functions in a small monad that threads the state
    of the process, collects the observable events in order and stops
    at [log.Fatal].  The collaborators the program calls (the libp2p
    host, the DHT, the operating system's sockets, [make], the global
    pseudo-random source) are oracles of an environment: every theorem
    quantifies over all of them. *)

From stdpp Require Import gmap strings list pretty.
From Stdlib Require Import ZArith Lia Strings.Byte.

(** ** Data model *)

(** [peer.ID] is a Go string type; its printed form is taken to be the
    string itself. *)
Definition PeerID : Type := string.

(** A Go error value, by its message. *)
Definition errmsg : Type := string.

(** Streams, TCP connections and listeners are named by handles into the
    table of endpoints of the process. *)
Abbreviation handle := nat (only parsing).

(** [peer.AddrInfo]. *)
Record AddrInfo : Type := mkAddrInfo {
  ID : PeerID;
  Addrs : list string
}.

Definition Protocol : string := "/mpcoord/0.0.1".
Definition Rendezvous : string := "/mpcoord".

(** [time.Duration] counts nanoseconds. *)
Definition Second : Z := 1000000000.
Definition Minute : Z := 60 * Second.

(** What an [io.ReadWriteCloser] will do: the chunks its successive
    [Read]s deliver, how its input ends ([None] is [io.EOF]), how many
    bytes it still accepts before [Write] fails ([None]: no limit), what
    has been written to it, and whether it has been closed. *)
Record endpoint : Type := mkEndpoint {
  ep_in : list (list byte);
  ep_rerr : option errmsg;
  ep_wcap : option nat;
  ep_out : list byte;
  ep_closed : bool
}.

(** The goroutines the program starts with [go]. *)
Inductive task : Type :=
| TRunExternal (event : string) (port : Z)
| TForward (dst src : handle)
| TAcceptLoop (ln : handle) (remotePeer : PeerID)
| THandleLocalConnection (conn : handle) (remotePeer : PeerID)
| TDiscoveryPoll.

(** Observable events, in program order. *)
Inductive event : Type :=
| ELog (line : string)
| ESleep (d : Z)
| EGo (t : task)
| EPrint (line : string)
| ESetPrefix (prefix : string)
| ENewHost (port : Z) (ok : bool)
| ECreate (filename : string) (ok : bool)
| EWriteString (filename text : string) (ok : bool)
| ESetStreamHandler (proto : string)
| EAdvertise (tag : string)
| EFindPeers (tag : string) (ok : bool)
| ESend (p : AddrInfo)
| EDial (port : Z) (conn : option handle)
| EListen (port : Z) (ln : option handle)
| EAccept (ln : handle) (conn : option handle)
| EConnect (p : AddrInfo) (ok : bool)
| ENewStream (peer : PeerID) (proto : string) (stream : option handle)
| EExec (name : string) (args env : list string) (ok : bool)
| EClose (h : handle).

(** The collaborators.  The first argument of an oracle is the number of
    collaborator calls the process has made before this one, so that a
    collaborator may answer differently from one call to the next. *)
Record Env : Type := mkEnv {
  self_id : PeerID;
  host_addrs : list string;
  rand_raw : nat -> Z;
  libp2p_new : nat -> Z -> option errmsg;
  dht_new : nat -> option errmsg;
  dht_bootstrap : nat -> option errmsg;
  find_peers : nat -> string -> errmsg + list AddrInfo;
  net_dial : nat -> Z -> errmsg + endpoint;
  net_listen : nat -> Z -> option errmsg;
  ln_accept : nat -> handle -> errmsg + endpoint;
  host_connect : nat -> AddrInfo -> option errmsg;
  host_new_stream : nat -> PeerID -> string -> errmsg + endpoint;
  cmd_run : nat -> string -> list string -> list string -> option errmsg;
  os_create : nat -> string -> option errmsg;
  io_write_string : nat -> string -> string -> option errmsg;
  new_multiaddr : string -> errmsg + string;
  addr_info_from_p2p_addr : string -> errmsg + AddrInfo
}.

(** The state of the process. *)
Record State : Type := mkState {
  clock : nat;
  next_handle : handle;
  endpoints : gmap nat endpoint;
  peerChan : list AddrInfo;
  peerChan_closed : bool
}.

(** ** The monad *)

(** How a computation ends: it returns, the process exits ([os.Exit]),
    or the goroutine blocks for ever. *)
Inductive outcome (A : Type) : Type :=
| Ret (a : A)
| Exit (code : Z)
| Blocked.
Arguments Ret {A} a.
Arguments Exit {A} code.
Arguments Blocked {A}.

Record result (A : Type) : Type := mkResult {
  res : outcome A;
  events : list event;
  final : State
}.
Arguments mkResult {A} res events final.
Arguments res {A} r.
Arguments events {A} r.
Arguments final {A} r.

Definition M (A : Type) : Type := State -> result A.

Definition ret {A : Type} (a : A) : M A :=
  fun s => mkResult (Ret a) [] s.

Definition bind {A B : Type} (m : M A) (f : A -> M B) : M B :=
  fun s =>
    let r := m s in
    match res r with
    | Ret a =>
        let r' := f a (final r) in
        mkResult (res r') (events r ++ events r') (final r')
    | Exit c => mkResult (Exit c) (events r) (final r)
    | Blocked => mkResult Blocked (events r) (final r)
    end.

Notation "'do' x <- m ; k" := (bind m (fun x => k))
  (at level 10, x name, m at level 100, k at level 200).
Notation "'run' m ; k" := (bind m (fun _ => k))
  (at level 10, m at level 100, k at level 200).

Definition emit (e : event) : M unit :=
  fun s => mkResult (Ret tt) [e] s.

Definition osExit {A : Type} (code : Z) : M A :=
  fun s => mkResult (Exit code) [] s.

Definition blockForever {A : Type} : M A :=
  fun s => mkResult Blocked [] s.

(** A collaborator call: the number of earlier calls is handed to the
    oracle. *)
Definition after_call (s : State) : State :=
  mkState (S (clock s)) (next_handle s) (endpoints s) (peerChan s)
    (peerChan_closed s).

Definition tick : M nat :=
  fun s => mkResult (Ret (clock s)) [] (after_call s).

Definition alloc (ep : endpoint) : M handle :=
  fun s =>
    mkResult (Ret (next_handle s)) []
      (mkState (clock s) (S (next_handle s))
         (<[next_handle s := ep]> (endpoints s)) (peerChan s)
         (peerChan_closed s)).

Definition keeps_running {A : Type} (r : result A) : bool :=
  match res r with
  | Exit _ => false
  | _ => true
  end.

(** A listener takes a handle but is no byte stream. *)
Definition after_fresh (s : State) : State :=
  mkState (clock s) (S (next_handle s)) (endpoints s) (peerChan s)
    (peerChan_closed s).

Definition fresh : M handle :=
  fun s => mkResult (Ret (next_handle s)) [] (after_fresh s).

Definition with_endpoints (m : gmap nat endpoint) (s : State) : State :=
  mkState (clock s) (next_handle s) m (peerChan s) (peerChan_closed s).

Definition set_endpoints (f : gmap nat endpoint -> gmap nat endpoint) : M unit :=
  fun s => mkResult (Ret tt) [] (with_endpoints (f (endpoints s)) s).

(** ** Library calls *)

(** The line [log.Println] prints: the operands separated by spaces. *)
Definition Sprintln (args : list string) : string := String.concat " " args.
Arguments Sprintln : simpl never.

Definition logPrintln (args : list string) : M unit :=
  emit (ELog (Sprintln args)).

(** [log.Fatal]: the line is printed, then [os.Exit(1)]. *)
Definition logFatal {A : Type} (e : errmsg) : M A :=
  run emit (ELog e); osExit 1.

Definition fmtPrintln (line : string) : M unit := emit (EPrint line).

Definition timeSleep (d : Z) : M unit := emit (ESleep d).

(** The [go] statement: the goroutine is handed to the scheduler. *)
Definition go (t : task) : M unit := emit (EGo t).

(** [peerChan <- p].  The sender waits while the buffer of the channel
    is full; the wait is not modelled, the queue holds what was sent. *)
Definition send (p : AddrInfo) : M unit :=
  fun s =>
    mkResult (Ret tt) [ESend p]
      (mkState (clock s) (next_handle s) (endpoints s) (peerChan s ++ [p])
         (peerChan_closed s)).

(** [close(peerChan)]. *)
Definition closeChan : M unit :=
  fun s =>
    mkResult (Ret tt) []
      (mkState (clock s) (next_handle s) (endpoints s) (peerChan s) true).

(** ** The byte streams *)

Inductive read_result : Type :=
| RData (chunk : list byte)
| REOF
| RErr (e : errmsg).

Definition errClosed : errmsg := "use of closed network connection".
Definition errBrokenPipe : errmsg := "write: broken pipe".

Definition with_in (ep : endpoint) (rest : list (list byte)) : endpoint :=
  mkEndpoint rest (ep_rerr ep) (ep_wcap ep) (ep_out ep) (ep_closed ep).

Definition with_out (ep : endpoint) (cap : option nat) (out : list byte) : endpoint :=
  mkEndpoint (ep_in ep) (ep_rerr ep) cap out (ep_closed ep).

Definition with_closed (ep : endpoint) : endpoint :=
  mkEndpoint (ep_in ep) (ep_rerr ep) (ep_wcap ep) (ep_out ep) true.

(** [h.Read(buf)]. *)
Definition epRead (h : handle) : M read_result :=
  fun s =>
    match endpoints s !! h with
    | None => ret (RErr errClosed) s
    | Some ep =>
        if ep_closed ep then ret (RErr errClosed) s
        else
          match ep_in ep with
          | c :: rest =>
              (run set_endpoints (insert h (with_in ep rest)); ret (RData c)) s
          | [] =>
              match ep_rerr ep with
              | None => ret REOF s
              | Some e => ret (RErr e) s
              end
          end
    end.

(** [h.Write(data)]: what fits is written; the error, if any. *)
Definition epWrite (h : handle) (data : list byte) : M (option errmsg) :=
  fun s =>
    match endpoints s !! h with
    | None => ret (Some errClosed) s
    | Some ep =>
        if ep_closed ep then ret (Some errClosed) s
        else
          match ep_wcap ep with
          | None =>
              (run set_endpoints (insert h (with_out ep None (ep_out ep ++ data)));
               ret None) s
          | Some cap =>
              if decide (length data <= cap)%nat then
                (run set_endpoints
                   (insert h (with_out ep (Some (cap - length data)%nat)
                                (ep_out ep ++ data)));
                 ret None) s
              else
                (run set_endpoints
                   (insert h (with_out ep (Some 0%nat)
                                (ep_out ep ++ take cap data)));
                 ret (Some errBrokenPipe)) s
          end
    end.

(** [h.Close()]; the error it may return is dropped by every caller. *)
Definition epClose (h : handle) : M unit :=
  run set_endpoints (alter with_closed h); emit (EClose h).

(** [io.Copy(dst, src)]: read [src] and write to [dst] until [src] is at
    end of file or a read or write fails; the error is [None] at end of
    file.  A chunk of no bytes is not written.  The loop runs once per
    pending chunk and once more for the end of the input. *)
Fixpoint copyLoop (fuel : nat) (dst src : handle) : M (option errmsg) :=
  match fuel with
  | O => blockForever
  | S fuel' =>
      do r <- epRead src;
      match r with
      | RData [] => copyLoop fuel' dst src
      | RData c =>
          do ew <- epWrite dst c;
          match ew with
          | Some e => ret (Some e)
          | None => copyLoop fuel' dst src
          end
      | REOF => ret None
      | RErr e => ret (Some e)
      end
  end.

Definition pending (h : handle) (s : State) : nat :=
  match endpoints s !! h with
  | Some ep => length (ep_in ep)
  | None => O
  end.

Definition ioCopy (dst src : handle) : M (option errmsg) :=
  fun s => copyLoop (S (pending src s)) dst src s.

(** [fmt.Sprintf("%v", peerInfo)]. *)
Definition showAddrInfo (peerInfo : AddrInfo) : string :=
  "{" +:+ ID peerInfo +:+ ": [" +:+ String.concat " " (Addrs peerInfo) +:+ "]}".
Arguments showAddrInfo : simpl never.

(** [fmt.Sprintf("PORT=%d", port)]. *)
Definition fmtPort (port : Z) : string := "PORT=" +:+ pretty port.
Arguments fmtPort : simpl never.

(** ** The collaborators' calls *)

Section Coordinator.
Context (env : Env).

(** [rand.Intn(n)] for a positive [n]: a value of [0, n). *)
Definition randIntn (n : Z) : M Z :=
  do t <- tick;
  ret (rand_raw env t `mod` n)%Z.

(** [net.Dial("tcp", fmt.Sprintf(":%d", port))]. *)
Definition netDial (port : Z) : M (errmsg + handle) :=
  do t <- tick;
  match net_dial env t port with
  | inl e => run emit (EDial port None); ret (inl e)
  | inr ep => do conn <- alloc ep; run emit (EDial port (Some conn)); ret (inr conn)
  end.

(** [net.Listen("tcp", fmt.Sprintf(":%d", port))]. *)
Definition netListen (port : Z) : M (errmsg + handle) :=
  do t <- tick;
  match net_listen env t port with
  | Some e => run emit (EListen port None); ret (inl e)
  | None => do ln <- fresh; run emit (EListen port (Some ln)); ret (inr ln)
  end.

(** [ln.Accept()]. *)
Definition lnAccept (ln : handle) : M (errmsg + handle) :=
  do t <- tick;
  match ln_accept env t ln with
  | inl e => run emit (EAccept ln None); ret (inl e)
  | inr ep => do conn <- alloc ep; run emit (EAccept ln (Some conn)); ret (inr conn)
  end.

(** [host.Connect(ctx, peerInfo)]. *)
Definition hostConnect (peerInfo : AddrInfo) : M (option errmsg) :=
  do t <- tick;
  let err := host_connect env t peerInfo in
  run emit (EConnect peerInfo (bool_decide (err = None)));
  ret err.

(** [host.NewStream(ctx, remotePeer, proto)]. *)
Definition hostNewStream (remotePeer : PeerID) (proto : string)
  : M (errmsg + handle) :=
  do t <- tick;
  match host_new_stream env t remotePeer proto with
  | inl e => run emit (ENewStream remotePeer proto None); ret (inl e)
  | inr ep =>
      do stream <- alloc ep;
      run emit (ENewStream remotePeer proto (Some stream));
      ret (inr stream)
  end.

(** [exec.Command(name, args...)] with [cmd.Env = envv], then
    [cmd.Run()]: the error covers a command that does not start and one
    that exits with a status other than 0. *)
Definition cmdRun (name : string) (args envv : list string) : M (option errmsg) :=
  do t <- tick;
  let err := cmd_run env t name args envv in
  run emit (EExec name args envv (bool_decide (err = None)));
  ret err.

(** [routingDiscovery.FindPeers(ctx, tag)], the channel it returns read
    to its end. *)
Definition findPeers (tag : string) : M (errmsg + list AddrInfo) :=
  do t <- tick;
  let r := find_peers env t tag in
  run emit (EFindPeers tag (match r with inl _ => false | inr _ => true end));
  ret r.

(** ** mpcoord.go *)

Definition makeRandomHost : M unit :=
  do r <- randIntn 10000;
  let port := (10000 + r)%Z in
  do t <- tick;
  match libp2p_new env t port with
  | Some e => run emit (ENewHost port false); logFatal e
  | None =>
      run emit (ENewHost port true);
      do t <- tick;
      match dht_new env t with
      | Some e => logFatal e
      | None =>
          do t <- tick;
          match dht_bootstrap env t with
          | Some e => logFatal e
          | None => ret tt
          end
      end
  end.

Definition NewProxyService : M unit :=
  emit (ESetStreamHandler Protocol).

(** [for peerInfo := range tmpPeerChan] of the polling goroutine. *)
Fixpoint pushPeers (tmpPeerChan : list AddrInfo) : M unit :=
  match tmpPeerChan with
  | [] => ret tt
  | peerInfo :: rest =>
      run (if decide (ID peerInfo = self_id env) then ret tt else send peerInfo);
      pushPeers rest
  end.

(** The goroutine of [startDiscovery], for [rounds] turns of its endless
    loop. *)
Fixpoint discoveryPoll (rounds : nat) : M unit :=
  match rounds with
  | O => ret tt
  | S rounds' =>
      do r <- findPeers Rendezvous;
      match r with
      | inl e => logFatal e
      | inr tmpPeerChan =>
          run pushPeers tmpPeerChan;
          run timeSleep Minute;
          discoveryPoll rounds'
      end
  end.

Definition startDiscovery : M unit :=
  run emit (EAdvertise Rendezvous);
  go TDiscoveryPoll.

Definition runExternal (event : string) (port : Z) : M unit :=
  do err <- cmdRun "make" [event] [fmtPort port];
  match err with
  | Some e => logFatal e
  | None => ret tt
  end.

Definition forward (dst src : handle) : M unit :=
  do err <- ioCopy dst src;
  run match err with
      | Some e => logPrintln [e]
      | None => ret tt
      end;
  epClose dst.

(** The [for i := 0; i < 60; i++] of [handleRemoteConnection], with [n]
    turns left; [true] when the function returned from inside the loop. *)
Fixpoint dialLoop (n : nat) (stream : handle) (port : Z) : M bool :=
  match n with
  | O => ret false
  | S n' =>
      do r <- netDial port;
      match r with
      | inl e =>
          run logPrintln ["Warning:"; e; ", retrying…"];
          run timeSleep Second;
          dialLoop n' stream port
      | inr conn =>
          run go (TForward stream conn);
          run go (TForward conn stream);
          ret true
      end
  end.

Definition handleRemoteConnection (stream : handle) : M unit :=
  run logPrintln ["server: forwarding remote connection to local server"];
  do r <- randIntn 10000;
  let port := (20000 + r)%Z in
  run go (TRunExternal "incoming-connection" port);
  do returned <- dialLoop 60 stream port;
  if returned then ret tt
  else logPrintln ["Error: could not reach local server."].

Definition Serve (remotePeer : PeerID) (port : Z) : M unit :=
  run logPrintln ["client: listening for local requests"];
  do r <- netListen port;
  match r with
  | inl e => logFatal e
  | inr ln => go (TAcceptLoop ln remotePeer)
  end.

(** The goroutine of [Serve], for [n] turns of its endless loop. *)
Fixpoint acceptLoop (n : nat) (ln : handle) (remotePeer : PeerID) : M unit :=
  match n with
  | O => ret tt
  | S n' =>
      do r <- lnAccept ln;
      match r with
      | inl e => logFatal e
      | inr conn =>
          run go (THandleLocalConnection conn remotePeer);
          acceptLoop n' ln remotePeer
      end
  end.

Definition handleLocalConnection (conn : handle) (remotePeer : PeerID) : M unit :=
  run logPrintln ["client: forwarding local connection to remote peer "; remotePeer];
  do r <- hostNewStream remotePeer Protocol;
  match r with
  | inl e => logPrintln [e]
  | inr stream =>
      run go (TForward stream conn);
      go (TForward conn stream)
  end.

Definition parseAddress (addr : string) : M AddrInfo :=
  match new_multiaddr env addr with
  | inl e => logFatal e
  | inr parsed =>
      match addr_info_from_p2p_addr env parsed with
      | inl e => logFatal e
      | inr peerInfo => ret peerInfo
      end
  end.

(** [peerInfo] is passed by pointer: the value it has on return. *)
Definition addRelayAddress (relayAddr : string) (peerInfo : AddrInfo) : M AddrInfo :=
  if decide (relayAddr = "") then ret peerInfo
  else
    let addr := relayAddr +:+ "/p2p-circuit/p2p/" +:+ ID peerInfo in
    match new_multiaddr env addr with
    | inl e => run logPrintln ["Warning:"; e]; ret peerInfo
    | inr maddr => ret (mkAddrInfo (ID peerInfo) (Addrs peerInfo ++ [maddr]))
    end.

Definition connectToPeer (addr : string) : M (errmsg + AddrInfo) :=
  do peerInfo <- parseAddress addr;
  do err <- hostConnect peerInfo;
  match err with
  | Some e => ret (inl e)
  | None => ret (inr peerInfo)
  end.

(** The command line: [-c], [-R] and [-r]. *)
Record Flags : Type := mkFlags {
  remotePeer : string;
  pureRelay : bool;
  relayPeer : string
}.

(** The [if] chain of [main] that sets [name]. *)
Definition selectName (flags : Flags) : string :=
  if pureRelay flags then "relay"
  else if decide (remotePeer flags <> "") then "client"
  else "server".

(** [for _, a := range host.Addrs()] of [main]: the value of [addr]
    after the loop. *)
Fixpoint printAddrs (addrs : list string) (addr : string) : M string :=
  match addrs with
  | [] => ret addr
  | a :: rest =>
      let addr := a +:+ "/p2p/" +:+ self_id env in
      run fmtPrintln addr;
      printAddrs rest addr
  end.

(** [for peerInfo := range peerChan] of [main], over the values the
    channel delivers. *)
Fixpoint mainLoop (relay : string) (received : list AddrInfo) : M unit :=
  match received with
  | [] => ret tt
  | peerInfo :: rest =>
      run logPrintln ["Found peer"; showAddrInfo peerInfo];
      do peerInfo <- addRelayAddress relay peerInfo;
      do err <- hostConnect peerInfo;
      match err with
      | Some _ =>
          run logPrintln ["Failed to connect, skipping"];
          mainLoop relay rest
      | None =>
          do r <- randIntn 10000;
          let port := (30000 + r)%Z in
          run Serve (ID peerInfo) port;
          run runExternal "outgoing-connection" port;
          mainLoop relay rest
      end
  end.

(** The loop takes what is queued; at the end of the queue it ends when
    the channel is closed and waits for ever when it is not. *)
Definition rangePeerChan (relay : string) : M unit :=
  fun s =>
    (run mainLoop relay (peerChan s);
     if peerChan_closed s then ret tt else blockForever)
      (mkState (clock s) (next_handle s) (endpoints s) [] (peerChan_closed s)).

(** [main].  In the discovery role the polling goroutine is given
    [rounds] turns before the loop of [main] starts to receive. *)
Definition main (flags : Flags) (rounds : nat) : M unit :=
  let name := selectName flags in
  run emit (ESetPrefix (name +:+ ": "));
  run makeRandomHost;
  run logPrintln ["Node"; self_id env];
  run logPrintln ["libp2p-peer addresses:"];
  do addr <- printAddrs (host_addrs env) "";
  do addr <-
    (if decide (relayPeer flags <> "") then
       run logPrintln ["Connecting to relay"; relayPeer flags];
       do _ <- connectToPeer (relayPeer flags);
       let addr := relayPeer flags +:+ "/p2p-circuit/p2p/" +:+ self_id env in
       run fmtPrintln addr;
       ret addr
     else ret addr);
  let filename := "local/" +:+ name +:+ ".p2p" in
  do t <- tick;
  match os_create env t filename with
  | Some e => run emit (ECreate filename false); logFatal e
  | None =>
      run emit (ECreate filename true);
      do t <- tick;
      match io_write_string env t filename addr with
      | Some e => run emit (EWriteString filename addr false); logFatal e
      | None =>
          run emit (EWriteString filename addr true);
          run logPrintln ["Wrote my address in"; filename];
          if pureRelay flags then
            run logPrintln ["Running as relay."];
            blockForever
          else
            run NewProxyService;
            run (if decide (name = "client") then
                   do remotePeerInfo <- parseAddress (remotePeer flags);
                   run send remotePeerInfo;
                   closeChan
                 else
                   run startDiscovery;
                   discoveryPoll rounds);
            rangePeerChan (relayPeer flags)
      end
  end.

(** What a goroutine runs; the endless loops for [n] turns. *)
Definition runTask (n : nat) (t : task) : M unit :=
  match t with
  | TRunExternal event port => runExternal event port
  | TForward dst src => forward dst src
  | TAcceptLoop ln remote => acceptLoop n ln remote
  | THandleLocalConnection conn remote => handleLocalConnection conn remote
  | TDiscoveryPoll => discoveryPoll n
  end.

End Coordinator.

(** The peers of a result set that are not this node. *)
Definition others (env : Env) (peers : list AddrInfo) : list AddrInfo :=
  filter (fun p => ID p <> self_id env) peers.

(** The lines of the log that the properties name. *)
Definition listening : event :=
  ELog (Sprintln ["client: listening for local requests"]).
Definition found (p : AddrInfo) : event :=
  ELog (Sprintln ["Found peer"; showAddrInfo p]).
Definition skipping : event :=
  ELog (Sprintln ["Failed to connect, skipping"]).
Definition forwarding_local (remote : PeerID) : event :=
  ELog (Sprintln ["client: forwarding local connection to remote peer "; remote]).
Definition forwarding_remote : event :=
  ELog (Sprintln ["server: forwarding remote connection to local server"]).
Definition retrying (e : errmsg) : event :=
  ELog (Sprintln ["Warning:"; e; ", retrying…"]).
Definition unreachable : event :=
  ELog (Sprintln ["Error: could not reach local server."]).

(** The state after [n] collaborator calls that allocate nothing. *)
Definition after_calls (n : nat) (s : State) : State :=
  mkState (n + clock s) (next_handle s) (endpoints s) (peerChan s)
    (peerChan_closed s).

(** The events of [n] refused dials in a row, the first of them call
    [c]: dial, warning, one second of sleep, each time. *)
Definition failed_dials (env : Env) (port : Z) (c n : nat) : list event :=
  flat_map
    (fun t =>
       match net_dial env t port with
       | inl e => [EDial port None; retrying e; ESleep Second]
       | inr _ => []
       end)
    (seq c n).

(** The number of dials in a run. *)
Definition is_dial (e : event) : bool :=
  match e with
  | EDial _ _ => true
  | _ => false
  end.

Definition dials_in (tr : list event) : nat := length (List.filter is_dial tr).

(** The command is run in the goroutine that emits [EExec]. *)
Definition is_exec (e : event) : bool :=
  match e with
  | EExec _ _ _ _ => true
  | _ => false
  end.


(** What the loop of [main] can emit. *)
Inductive outbound_event : event -> Prop :=
| oe_log line : outbound_event (ELog line)
| oe_connect p ok : outbound_event (EConnect p ok)
| oe_listen port ln :
    (30000 <= port <= 39999)%Z -> outbound_event (EListen port ln)
| oe_accept ln remote : outbound_event (EGo (TAcceptLoop ln remote))
| oe_launch port ok :
    (30000 <= port <= 39999)%Z ->
    outbound_event (EExec "make" ["outgoing-connection"] [fmtPort port] ok).

(** What [addRelayAddress] leaves in [peerInfo]. *)
Definition relayed (env : Env) (relayAddr : string) (peerInfo : AddrInfo) : AddrInfo :=
  if decide (relayAddr = "") then peerInfo
  else
    match new_multiaddr env (relayAddr +:+ "/p2p-circuit/p2p/" +:+ ID peerInfo) with
    | inl _ => peerInfo
    | inr maddr => mkAddrInfo (ID peerInfo) (Addrs peerInfo ++ [maddr])
    end.

(** The port [base + rand.Intn(10000)] drawn in state [s]. *)
Definition drawn (env : Env) (base : Z) (s : State) : Z :=
  (base + rand_raw env (clock s) `mod` 10000)%Z.

(** The state once [sent] has been pushed onto the channel. *)
Definition pushed (sent : list AddrInfo) (s : State) : State :=
  mkState (clock s) (next_handle s) (endpoints s) (peerChan s ++ sent)
    (peerChan_closed s).

(** ** Sample collaborators and states *)

Module Sample.

Definition peerA : AddrInfo := mkAddrInfo "QmA" ["/ip4/10.0.0.1/tcp/10001"].
Definition peerB : AddrInfo := mkAddrInfo "QmB" ["/ip4/10.0.0.2/tcp/10002"].
Definition me : AddrInfo := mkAddrInfo "QmSelf" ["/ip4/10.0.0.9/tcp/10009"].

(** A connection with nothing to read and no limit on writes. *)
Definition idle : endpoint := mkEndpoint [] None None [] false.

(** A connection that delivers two chunks and then ends as [rerr] says. *)
Definition talking (rerr : option errmsg) : endpoint :=
  mkEndpoint [["h"; "i"]; ["!"]]%byte rerr None [] false.

(** Collaborators that answer as given to dial, listen, connect, new
    stream and [make], and succeed everywhere else. *)
Definition collaborators
    (dial : nat -> Z -> errmsg + endpoint)
    (listen : nat -> Z -> option errmsg)
    (connect : nat -> AddrInfo -> option errmsg)
    (stream : nat -> PeerID -> string -> errmsg + endpoint)
    (make : nat -> string -> list string -> list string -> option errmsg) : Env :=
  mkEnv "QmSelf" ["/ip4/0.0.0.0/tcp/12345"]
    (fun t => 7919 * Z.of_nat t + 123456)%Z
    (fun _ _ => None) (fun _ => None) (fun _ => None)
    (fun _ _ => inr [peerA; me; peerB])
    dial listen
    (fun _ _ => inr idle)
    connect stream make
    (fun _ _ => None) (fun _ _ _ => None)
    (fun a => inr a)
    (fun a => inr (mkAddrInfo a [a])).

Definition dial_ok : nat -> Z -> errmsg + endpoint := fun _ _ => inr idle.
Definition dial_refused : nat -> Z -> errmsg + endpoint :=
  fun _ _ => inl "connect: connection refused".
(** The backend listens from the third dial on (the draw of the port is
    call 0, the dials are calls 1, 2, 3, ...). *)
Definition dial_third : nat -> Z -> errmsg + endpoint :=
  fun t _ => if decide (t < 3)%nat then inl "connect: connection refused" else inr idle.
Definition listen_ok : nat -> Z -> option errmsg := fun _ _ => None.
Definition listen_in_use : nat -> Z -> option errmsg :=
  fun _ _ => Some "bind: address already in use".
Definition connect_ok : nat -> AddrInfo -> option errmsg := fun _ _ => None.
(** No route to [peerA], every other peer is reached. *)
Definition connect_not_A : nat -> AddrInfo -> option errmsg :=
  fun _ p => if decide (ID p = "QmA") then Some "dial backoff" else None.
Definition stream_ok : nat -> PeerID -> string -> errmsg + endpoint :=
  fun _ _ _ => inr idle.
Definition stream_fails : nat -> PeerID -> string -> errmsg + endpoint :=
  fun _ _ _ => inl "protocol not supported".
Definition make_ok : nat -> string -> list string -> list string -> option errmsg :=
  fun _ _ _ _ => None.
Definition make_missing : nat -> string -> list string -> list string -> option errmsg :=
  fun _ _ _ _ => Some "exec: make: executable file not found in $PATH".

Definition all_well : Env :=
  collaborators dial_ok listen_ok connect_ok stream_ok make_ok.

(** A process that has made no call and holds no endpoint. *)
Definition start : State := mkState 0 0 ∅ [] false.

(** A process that holds one open endpoint, with handle 0. *)
Definition holding (ep : endpoint) : State :=
  mkState 0 1 {[ 0%nat := ep ]} [] false.

End Sample.

(** ** Measures of a run *)

(** The time a run has slept, in nanoseconds. *)
Definition slept (tr : list event) : Z :=
  foldr (fun e acc => match e with ESleep d => (d + acc)%Z | _ => acc end) 0%Z tr.

(** The number of dials that were refused. *)
Definition is_refusal (e : event) : bool :=
  match e with
  | EDial _ None => true
  | _ => false
  end.

Definition refused_in (tr : list event) : nat := length (List.filter is_refusal tr).

(** The events of [k] accepted connections in a row on listener [ln],
    the first of them with handle [h]: the accept and the goroutine that
    handles the connection, each time. *)
Definition accepted (ln : handle) (remote : PeerID) (h k : nat) : list event :=
  flat_map
    (fun conn => [EAccept ln (Some conn); EGo (THandleLocalConnection conn remote)])
    (seq h k).

(** What [n] polls in a row push onto the channel, the first of them
    call [c]: for each poll the peers it found that are not this node. *)
Definition polled (env : Env) (c n : nat) : list AddrInfo :=
  flat_map
    (fun t =>
       match find_peers env t Rendezvous with
       | inl _ => []
       | inr peers => others env peers
       end)
    (seq c n).

(** The peers a run has tried to connect to, in order. *)
Definition connects_in (tr : list event) : list AddrInfo :=
  flat_map (fun e => match e with EConnect p _ => [p] | _ => [] end) tr.

(** The events of the start of [main]: the log, the standard output,
    the host, the connect to the relay and the address file. *)
Definition is_startup (e : event) : bool :=
  match e with
  | ELog _ | EPrint _ | ESetPrefix _ | ENewHost _ _ | EConnect _ _
  | ECreate _ _ | EWriteString _ _ _ => true
  | _ => false
  end.

(** The events of discovery: the advertisement, a query, the start of
    the polling goroutine. *)
Definition is_discovery (e : event) : bool :=
  match e with
  | EAdvertise _ | EFindPeers _ _ | EGo TDiscoveryPoll => true
  | _ => false
  end.

(** A computation that leaves the channel open or closed as it was:
    nothing but [close(peerChan)] closes it. *)
Definition keeps_chan {A : Type} (m : M A) : Prop :=
  forall s, peerChan_closed (final (m s)) = peerChan_closed s.

(** The address [main] puts in its file: the circuit address through
    the relay when a relay is given, else the last of the addresses of
    the host, followed by the identifier of the node; the empty text
    when the host has no address. *)
Definition advertised (env : Env) (flags : Flags) : string :=
  if decide (relayPeer flags <> "") then
    relayPeer flags +:+ "/p2p-circuit/p2p/" +:+ self_id env
  else
    foldl (fun _ a => a +:+ "/p2p/" +:+ self_id env) "" (host_addrs env).

(** An event that touches no file but [file], and writes nothing to it
    but [text]. *)
Definition touches_only (file text : string) (e : event) : Prop :=
  match e with
  | ECreate f _ => f = file
  | EWriteString f t _ => f = file /\ t = text
  | _ => True
  end.

(** The events that touch no file. *)
Definition is_fileless (e : event) : bool :=
  match e with
  | ECreate _ _ | EWriteString _ _ _ => false
  | _ => true
  end.

(** The listeners a run has bound, in order. *)
Definition listeners_in (tr : list event) : list nat :=
  flat_map (fun e => match e with EListen _ (Some ln) => [ln] | _ => [] end) tr.

(** The commands a run has run to their end. *)
Definition launched_in (tr : list event) : nat := length (List.filter is_exec tr).

(** * Properties *)

(** ** Role selection *)

(** C10. The relay flag comes first: with [-R] the role is relay
    whatever [-c] holds; the role is client exactly when [-R] is unset
    and [-c] is not empty, and server exactly when [-R] is unset and
    [-c] is empty.  [main] announces the role it selected as the prefix
    of its log before it does anything else. *)
Theorem selectName_relay_first (flags : Flags) :
  (pureRelay flags = true -> selectName flags = "relay")
  /\ (selectName flags = "relay" <-> pureRelay flags = true)
  /\ (selectName flags = "client" <->
        pureRelay flags = false /\ remotePeer flags <> "")
  /\ (selectName flags = "server" <->
        pureRelay flags = false /\ remotePeer flags = "")
  /\ (forall env rounds s,
        head (events (main env flags rounds s))
        = Some (ESetPrefix (selectName flags +:+ ": "))).
Proof.
  assert (Hmain : forall env rounds s,
             head (events (main env flags rounds s))
             = Some (ESetPrefix (selectName flags +:+ ": "))).
  { intros env rounds s. unfold main, bind at 1. reflexivity. }
  revert Hmain. unfold selectName.
  destruct flags as [c R r]; simpl.
  destruct R; simpl; intros Hmain.
  - repeat split; try assumption; try discriminate; try tauto;
      intros [? ?]; discriminate.
  - destruct (decide (c <> "")) as [Hc | Hc].
    + repeat split; try assumption; try discriminate; try tauto;
        intros [_ ?]; contradiction.
    + assert (c = "") by (destruct (decide (c = "")); [assumption | contradiction]).
      repeat split; try assumption; try discriminate; try tauto;
        intros [_ ?]; contradiction.
Qed.

Lemma selectName_relay_first_witness :
  selectName (mkFlags "/ip4/10.0.0.1/tcp/10001/p2p/QmA" true "") = "relay".
Proof.
  apply (selectName_relay_first (mkFlags "/ip4/10.0.0.1/tcp/10001/p2p/QmA" true "")).
  reflexivity.
Defined.

(** ** Sequencing *)

Section Sequencing.
Context {A B : Type} (m : M A) (f : A -> M B) (s : State).

Lemma bind_Ret (a : A) :
  res (m s) = Ret a ->
  bind m f s
  = mkResult (res (f a (final (m s))))
      (events (m s) ++ events (f a (final (m s))))
      (final (f a (final (m s)))).
Proof. intros H. unfold bind. rewrite H. reflexivity. Qed.

Lemma bind_Exit (c : Z) :
  res (m s) = Exit c ->
  bind m f s = mkResult (Exit c) (events (m s)) (final (m s)).
Proof. intros H. unfold bind. rewrite H. reflexivity. Qed.

Lemma bind_Blocked :
  res (m s) = Blocked ->
  bind m f s = mkResult Blocked (events (m s)) (final (m s)).
Proof. intros H. unfold bind. rewrite H. reflexivity. Qed.

(** What [m] emitted stays at the front whatever follows. *)
Lemma bind_events_prefix :
  exists tail, events (bind m f s) = events (m s) ++ tail.
Proof.
  unfold bind. destruct (res (m s)); simpl.
  - eexists; reflexivity.
  - exists []. symmetry. apply app_nil_r.
  - exists []. symmetry. apply app_nil_r.
Qed.

End Sequencing.

(** ** Discovery *)

Lemma pushPeers_run (env : Env) (peers : list AddrInfo) (s : State) :
  pushPeers env peers s
  = mkResult (Ret tt) (map ESend (others env peers)) (pushed (others env peers) s).
Proof.
  revert s. induction peers as [| p rest IH]; intros s.
  - simpl. unfold ret, others, pushed. simpl. rewrite app_nil_r.
    destruct s; reflexivity.
  - simpl. unfold others. rewrite filter_cons.
    destruct (decide (ID p = self_id env)) as [Heq | Hne].
    + rewrite decide_False by (intros H; apply H; exact Heq).
      unfold bind at 1. simpl. rewrite IH. reflexivity.
    + rewrite decide_True by exact Hne.
      unfold bind at 1. simpl. rewrite IH. unfold pushed. simpl.
      rewrite <- app_assoc. reflexivity.
Qed.

Lemma others_not_self (env : Env) (peers : list AddrInfo) :
  Forall (fun p => ID p <> self_id env) (others env peers).
Proof.
  apply Forall_forall. intros p Hp.
  unfold others in Hp. apply list_elem_of_filter in Hp. tauto.
Qed.

Lemma findPeers_run (env : Env) (tag : string) (s : State) :
  findPeers env tag s
  = mkResult (Ret (find_peers env (clock s) tag))
      [EFindPeers tag
         (match find_peers env (clock s) tag with inl _ => false | inr _ => true end)]
      (after_call s).
Proof. reflexivity. Qed.

(** One turn of the polling loop. *)
Lemma discoveryPoll_S (env : Env) (n : nat) (s : State) :
  discoveryPoll env (S n) s
  = match find_peers env (clock s) Rendezvous with
    | inl e =>
        mkResult (Exit 1) [EFindPeers Rendezvous false; ELog e] (after_call s)
    | inr peers =>
        let r := discoveryPoll env n (pushed (others env peers) (after_call s)) in
        mkResult (res r)
          (EFindPeers Rendezvous true
             :: map ESend (others env peers) ++ ESleep Minute :: events r)
          (final r)
    end.
Proof.
  simpl. rewrite (bind_Ret _ _ _ _ (f_equal res (findPeers_run env Rendezvous s))).
  rewrite findPeers_run. simpl.
  destruct (find_peers env (clock s) Rendezvous) as [e | peers]; simpl.
  - reflexivity.
  - erewrite bind_Ret by (rewrite pushPeers_run; reflexivity).
    rewrite pushPeers_run. simpl. reflexivity.
Qed.

(** What the polling goroutine has pushed after any number of turns. *)
Lemma discoveryPoll_sent (env : Env) (rounds : nat) (s : State) :
  exists sent,
    Forall (fun p => ID p <> self_id env) sent
    /\ peerChan (final (discoveryPoll env rounds s)) = peerChan s ++ sent
    /\ (forall p, ESend p ∈ events (discoveryPoll env rounds s) -> p ∈ sent).
Proof.
  revert s. induction rounds as [| n IH]; intros s.
  - exists []. simpl. rewrite app_nil_r.
    repeat split; [constructor | intros p Hp; inversion Hp].
  - rewrite discoveryPoll_S.
    destruct (find_peers env (clock s) Rendezvous) as [e | peers]; simpl.
    + exists []. rewrite app_nil_r.
      repeat split; [constructor |].
      intros p Hp. rewrite !elem_of_cons in Hp.
      destruct Hp as [Hp | [Hp | Hp]]; try discriminate. inversion Hp.
    + destruct (IH (pushed (others env peers) (after_call s)))
        as (sent & Hall & Hq & Hev).
      exists (others env peers ++ sent). repeat split.
      * apply Forall_app. split; [apply others_not_self | exact Hall].
      * rewrite Hq. simpl. rewrite app_assoc. reflexivity.
      * intros p Hp. rewrite elem_of_cons, elem_of_app, elem_of_cons in Hp.
        rewrite elem_of_app.
        destruct Hp as [Hp | [Hp | [Hp | Hp]]]; try discriminate.
        -- left. apply list_elem_of_fmap in Hp.
           destruct Hp as (q & Hq' & Hin). inversion Hq'; subst. exact Hin.
        -- right. apply Hev. exact Hp.
Qed.

(** C4. One pass over a result set of the discovery collaborator pushes
    onto the channel exactly the entries whose identifier is not this
    node's, in their order; and whatever the collaborator returns, turn
    after turn, the polling goroutine never pushes an entry with this
    node's own identifier. *)
Theorem discovery_filters_self (env : Env) (s : State) :
  (forall peers,
     res (pushPeers env peers s) = Ret tt
     /\ events (pushPeers env peers s)
        = map ESend (filter (fun p => ID p <> self_id env) peers)
     /\ peerChan (final (pushPeers env peers s))
        = peerChan s ++ filter (fun p => ID p <> self_id env) peers)
  /\ (forall peers n,
        find_peers env (clock s) Rendezvous = inr peers ->
        exists tail,
          events (discoveryPoll env (S n) s)
          = EFindPeers Rendezvous true
              :: map ESend (filter (fun p => ID p <> self_id env) peers) ++ tail)
  /\ (forall rounds p,
        ESend p ∈ events (discoveryPoll env rounds s) -> ID p <> self_id env)
  /\ (forall rounds,
        exists sent,
          peerChan (final (discoveryPoll env rounds s)) = peerChan s ++ sent
          /\ Forall (fun p => ID p <> self_id env) sent).
Proof.
  repeat split.
  - rewrite pushPeers_run. reflexivity.
  - rewrite pushPeers_run. reflexivity.
  - rewrite pushPeers_run. reflexivity.
  - intros peers n Hfind. rewrite discoveryPoll_S, Hfind. simpl.
    eexists. reflexivity.
  - intros rounds p Hp.
    destruct (discoveryPoll_sent env rounds s) as (sent & Hall & _ & Hev).
    rewrite Forall_forall in Hall. apply Hall, Hev, Hp.
  - intros rounds.
    destruct (discoveryPoll_sent env rounds s) as (sent & Hall & Hq & _).
    exists sent. split; assumption.
Qed.

Lemma discovery_filters_self_witness :
  exists tail,
    events (discoveryPoll Sample.all_well 2 Sample.start)
    = EFindPeers Rendezvous true
        :: map ESend [Sample.peerA; Sample.peerB] ++ tail.
Proof.
  destruct (discovery_filters_self Sample.all_well Sample.start)
    as (_ & Hround & _).
  apply (Hround [Sample.peerA; Sample.me; Sample.peerB] 1%nat).
  reflexivity.
Defined.

(** ** The steps of the main loop *)

Lemma randIntn_run (env : Env) (n : Z) (s : State) :
  randIntn env n s
  = mkResult (Ret (rand_raw env (clock s) `mod` n)%Z) [] (after_call s).
Proof. reflexivity. Qed.

Lemma runExternal_run (env : Env) (event : string) (port : Z) (s : State) :
  runExternal env event port s
  = match cmd_run env (clock s) "make" [event] [fmtPort port] with
    | Some e =>
        mkResult (Exit 1)
          [EExec "make" [event] [fmtPort port] false; ELog e] (after_call s)
    | None =>
        mkResult (Ret tt) [EExec "make" [event] [fmtPort port] true] (after_call s)
    end.
Proof.
  unfold runExternal, cmdRun, bind, tick; simpl.
  destruct (cmd_run env (clock s) "make" [event] [fmtPort port]); reflexivity.
Qed.

Lemma Serve_run (env : Env) (remote : PeerID) (port : Z) (s : State) :
  Serve env remote port s
  = match net_listen env (clock s) port with
    | Some e =>
        mkResult (Exit 1) [listening; EListen port None; ELog e] (after_call s)
    | None =>
        mkResult (Ret tt)
          [listening; EListen port (Some (next_handle s));
           EGo (TAcceptLoop (next_handle s) remote)]
          (after_fresh (after_call s))
    end.
Proof.
  unfold Serve, netListen, bind, tick; simpl.
  destruct (net_listen env (clock s) port); reflexivity.
Qed.

Lemma addRelayAddress_res (env : Env) (relay : string) (p : AddrInfo) (s : State) :
  res (addRelayAddress env relay p s) = Ret (relayed env relay p)
  /\ final (addRelayAddress env relay p s) = s.
Proof.
  unfold addRelayAddress, relayed.
  destruct (decide (relay = "")); [split; reflexivity |].
  destruct (new_multiaddr env _); split; reflexivity.
Qed.

(** One turn of [for peerInfo := range peerChan]. *)
Lemma mainLoop_cons (env : Env) (relay : string) (p : AddrInfo)
    (rest : list AddrInfo) (s : State) :
  let p' := relayed env relay p in
  let pre := found p :: events (addRelayAddress env relay p s) in
  let s1 := after_call s in
  let port := drawn env 30000 s1 in
  let s2 := after_call s1 in
  let ln := next_handle s in
  let s3 := after_fresh (after_call s2) in
  let launch := EExec "make" ["outgoing-connection"] [fmtPort port] in
  mainLoop env relay (p :: rest) s
  = match host_connect env (clock s) p' with
    | Some _ =>
        let r := mainLoop env relay rest s1 in
        mkResult (res r) (pre ++ [EConnect p' false; skipping] ++ events r) (final r)
    | None =>
        match net_listen env (clock s2) port with
        | Some e =>
            mkResult (Exit 1)
              (pre ++ [EConnect p' true; listening; EListen port None; ELog e])
              (after_call s2)
        | None =>
            match cmd_run env (clock s3) "make" ["outgoing-connection"] [fmtPort port] with
            | Some e =>
                mkResult (Exit 1)
                  (pre ++ [EConnect p' true; listening; EListen port (Some ln);
                           EGo (TAcceptLoop ln (ID p')); launch false; ELog e])
                  (after_call s3)
            | None =>
                let r := mainLoop env relay rest (after_call s3) in
                mkResult (res r)
                  (pre ++ [EConnect p' true; listening; EListen port (Some ln);
                           EGo (TAcceptLoop ln (ID p')); launch true] ++ events r)
                  (final r)
            end
        end
    end.
Proof.
  intros p' pre s1 port s2 ln s3 launch.
  destruct (addRelayAddress_res env relay p s) as [Hr Hf].
  cbn [mainLoop].
  erewrite bind_Ret by reflexivity. cbn [res events final logPrintln emit].
  erewrite bind_Ret by exact Hr. rewrite Hf.
  fold p'.
  unfold hostConnect, bind at 1, tick; simpl.
  destruct (host_connect env (clock s) p') as [e |].
  - reflexivity.
  - cbn [bool_decide decide_rel res events final].
    erewrite bind_Ret by reflexivity. rewrite randIntn_run.
    cbn [res events final]. fold s1.
    change (30000 + rand_raw env (clock s1) `mod` 10000)%Z with port.
    unfold bind. rewrite !Serve_run. cbn [clock after_call s1].
    destruct (net_listen env (S (S (clock s))) port) as [e |];
      [reflexivity |].
    cbn [res events final]. rewrite !runExternal_run.
    cbn [clock after_call after_fresh s1].
    destruct (cmd_run env (S (S (S (clock s)))) "make" ["outgoing-connection"]
                [fmtPort port]) as [e |]; reflexivity.
Qed.

Lemma addRelayAddress_events (env : Env) (relay : string) (p : AddrInfo) (s : State) :
  forall ev, ev ∈ events (addRelayAddress env relay p s) -> exists line, ev = ELog line.
Proof.
  intros ev. unfold addRelayAddress.
  destruct (decide (relay = "")); [intros H; inversion H |].
  destruct (new_multiaddr env _); simpl; intros H.
  - apply elem_of_cons in H as [H | H]; [eauto | inversion H].
  - inversion H.
Qed.

(** ** Failures in the main loop *)

(** C5. When the transport cannot connect to a received peer, the loop
    logs that it skips the peer and goes on: the run is the log of this
    turn followed by the run of the loop over the peers that follow,
    from the state after the failed call.  The turn of the peer that
    failed holds nothing but lines of the log and the connect itself: no
    listener, no goroutine, no backend. *)
Theorem failed_connect_is_skipped (env : Env) (relay : string) (p : AddrInfo)
    (rest : list AddrInfo) (s : State) (e : errmsg) :
  host_connect env (clock s) (relayed env relay p) = Some e ->
  let r := mainLoop env relay (p :: rest) s in
  let next := mainLoop env relay rest (after_call s) in
  let warning := events (addRelayAddress env relay p s) in
  res r = res next
  /\ final r = final next
  /\ events r
     = found p :: warning
         ++ [EConnect (relayed env relay p) false; skipping] ++ events next
  /\ (forall ev, ev ∈ warning -> exists line, ev = ELog line).
Proof.
  intros Hconn r next warning. subst r next warning.
  rewrite mainLoop_cons. cbv zeta. rewrite Hconn.
  repeat split. apply addRelayAddress_events.
Qed.

Lemma failed_connect_is_skipped_witness :
  events (mainLoop (Sample.collaborators Sample.dial_ok Sample.listen_ok
                      Sample.connect_not_A Sample.stream_ok Sample.make_ok)
            "" [Sample.peerA; Sample.peerB] Sample.start)
  = [found Sample.peerA; EConnect Sample.peerA false; skipping;
     found Sample.peerB; EConnect Sample.peerB true; listening;
     EListen 39294 (Some 0%nat); EGo (TAcceptLoop 0 "QmB");
     EExec "make" ["outgoing-connection"] [fmtPort 39294] true].
Proof.
  pose proof (failed_connect_is_skipped
                (Sample.collaborators Sample.dial_ok Sample.listen_ok
                   Sample.connect_not_A Sample.stream_ok Sample.make_ok)
                "" Sample.peerA [Sample.peerB] Sample.start "dial backoff")
    as H.
  destruct H as (_ & _ & H & _); [reflexivity |].
  rewrite H. vm_compute. reflexivity.
Defined.

(** ** What [log.Fatal] does to the coordinator *)

(** C1, as the code has it.  When the backend command cannot be run,
    [runExternal] prints the error and the whole process exits with
    status 1, in a goroutine (the incoming mode) as in the loop of
    [main] (the outgoing mode); in the loop the run ends at that line,
    whatever peers were still to come. *)
Theorem backend_launch_failure_exits (env : Env) :
  (forall event port s e,
     cmd_run env (clock s) "make" [event] [fmtPort port] = Some e ->
     runExternal env event port s
     = mkResult (Exit 1)
         [EExec "make" [event] [fmtPort port] false; ELog e] (after_call s)
     /\ forall n,
          runTask env n (TRunExternal event port) s
          = runExternal env event port s)
  /\ (forall relay p rest s e,
        let p' := relayed env relay p in
        let port := drawn env 30000 (after_call s) in
        host_connect env (clock s) p' = None ->
        net_listen env (S (S (clock s))) port = None ->
        cmd_run env (S (S (S (clock s)))) "make" ["outgoing-connection"]
          [fmtPort port] = Some e ->
        res (mainLoop env relay (p :: rest) s) = Exit 1
        /\ events (mainLoop env relay (p :: rest) s)
           = found p :: events (addRelayAddress env relay p s)
               ++ [EConnect p' true; listening;
                   EListen port (Some (next_handle s));
                   EGo (TAcceptLoop (next_handle s) (ID p'));
                   EExec "make" ["outgoing-connection"] [fmtPort port] false;
                   ELog e]).
Proof.
  split.
  - intros event port s e Hrun. split; [| reflexivity].
    rewrite runExternal_run, Hrun. reflexivity.
  - intros relay p rest s e p' port Hconn Hlisten Hrun.
    rewrite mainLoop_cons. cbv zeta. fold p'. rewrite Hconn.
    cbn [clock after_call after_fresh]. fold port.
    rewrite Hlisten, Hrun. split; reflexivity.
Qed.

Lemma backend_launch_failure_exits_witness :
  res (runExternal (Sample.collaborators Sample.dial_ok Sample.listen_ok
                      Sample.connect_ok Sample.stream_ok Sample.make_missing)
         "incoming-connection" 20000 Sample.start) = Exit 1
  /\ res (mainLoop (Sample.collaborators Sample.dial_ok Sample.listen_ok
                      Sample.connect_ok Sample.stream_ok Sample.make_missing)
            "" [Sample.peerA; Sample.peerB] Sample.start) = Exit 1.
Proof.
  destruct (backend_launch_failure_exits
              (Sample.collaborators Sample.dial_ok Sample.listen_ok
                 Sample.connect_ok Sample.stream_ok Sample.make_missing))
    as [Hrun Hloop].
  split.
  - destruct (Hrun "incoming-connection" 20000%Z Sample.start
                "exec: make: executable file not found in $PATH") as [H _];
      [reflexivity |].
    rewrite H. reflexivity.
  - destruct (Hloop "" Sample.peerA [Sample.peerB] Sample.start
                "exec: make: executable file not found in $PATH") as [H _];
      [reflexivity | reflexivity | reflexivity |].
    exact H.
Defined.

(** C1 as the specification words it fails: [make] is missing, the turn
    of the first peer ends the process, and the second peer, which could
    be reached, is never looked at. *)
Lemma launch_failure_stops_the_coordinator :
  let env := Sample.collaborators Sample.dial_ok Sample.listen_ok
               Sample.connect_ok Sample.stream_ok Sample.make_missing in
  let r := mainLoop env "" [Sample.peerA; Sample.peerB] Sample.start in
  cmd_run env 3 "make" ["outgoing-connection"] [fmtPort 31375]
  = Some "exec: make: executable file not found in $PATH"
  /\ keeps_running r = false
  /\ res r = Exit 1
  /\ (found Sample.peerB ∉ events r)
  /\ keeps_running (runExternal env "incoming-connection" 20000 Sample.start)
     = false.
Proof.
  cbv zeta. repeat split.
  intros H. vm_compute in H.
  repeat (apply elem_of_cons in H as [H | H]; [discriminate H |]).
  inversion H.
Qed.

(** C3, as the code has it.  When the listener cannot be bound, [Serve]
    prints the error and the whole process exits with status 1.  A call
    of [Serve] binds once, the port it was given: it tries no other port
    and starts no accept loop after a failure.  In the loop of [main]
    the run ends at that line, so no later turn draws another port. *)
Theorem bind_failure_exits (env : Env) :
  (forall remote port s e,
     net_listen env (clock s) port = Some e ->
     Serve env remote port s
     = mkResult (Exit 1) [listening; EListen port None; ELog e] (after_call s))
  /\ (forall remote port s,
        exists ln last,
          events (Serve env remote port s) = [listening; EListen port ln; last]
          /\ forall q l, last <> EListen q l)
  /\ (forall relay p rest s e,
        let p' := relayed env relay p in
        let port := drawn env 30000 (after_call s) in
        host_connect env (clock s) p' = None ->
        net_listen env (S (S (clock s))) port = Some e ->
        res (mainLoop env relay (p :: rest) s) = Exit 1
        /\ events (mainLoop env relay (p :: rest) s)
           = found p :: events (addRelayAddress env relay p s)
               ++ [EConnect p' true; listening; EListen port None; ELog e]).
Proof.
  split; [| split].
  - intros remote port s e Hlisten.
    rewrite Serve_run, Hlisten. reflexivity.
  - intros remote port s. rewrite Serve_run.
    destruct (net_listen env (clock s) port); do 2 eexists;
      (split; [reflexivity | intros q l; discriminate]).
  - intros relay p rest s e p' port Hconn Hlisten.
    rewrite mainLoop_cons. cbv zeta. fold p'. rewrite Hconn.
    cbn [clock after_call]. fold port. rewrite Hlisten.
    split; reflexivity.
Qed.

Lemma bind_failure_exits_witness :
  res (Serve (Sample.collaborators Sample.dial_ok Sample.listen_in_use
                Sample.connect_ok Sample.stream_ok Sample.make_ok)
         "QmA" 30000 Sample.start) = Exit 1
  /\ res (mainLoop (Sample.collaborators Sample.dial_ok Sample.listen_in_use
                      Sample.connect_ok Sample.stream_ok Sample.make_ok)
            "" [Sample.peerA; Sample.peerB] Sample.start) = Exit 1.
Proof.
  destruct (bind_failure_exits
              (Sample.collaborators Sample.dial_ok Sample.listen_in_use
                 Sample.connect_ok Sample.stream_ok Sample.make_ok))
    as (Hserve & _ & Hloop).
  split.
  - rewrite (Hserve "QmA" 30000%Z Sample.start "bind: address already in use");
      reflexivity.
  - destruct (Hloop "" Sample.peerA [Sample.peerB] Sample.start
                "bind: address already in use") as [H _];
      [reflexivity | reflexivity |].
    exact H.
Defined.

(** C3 as the specification words it fails: the port is taken, and the
    process does not survive the call. *)
Lemma bind_failure_stops_the_coordinator :
  let env := Sample.collaborators Sample.dial_ok Sample.listen_in_use
               Sample.connect_ok Sample.stream_ok Sample.make_ok in
  net_listen env 0 30000 = Some "bind: address already in use"
  /\ keeps_running (Serve env "QmA" 30000 Sample.start) = false
  /\ res (Serve env "QmA" 30000 Sample.start) = Exit 1
  /\ keeps_running (mainLoop env "" [Sample.peerA; Sample.peerB] Sample.start)
     = false.
Proof. cbv zeta. repeat split. Qed.

(** ** The handlers of the two kinds of connection *)

(** C9. When the stream to the remote peer cannot be opened,
    [handleLocalConnection] logs the error and returns: it starts no
    forwarder and closes nothing, so the accepted local connection stays
    in the table of endpoints exactly as it was, open if it was open. *)
Theorem failed_stream_leaves_conn_open (env : Env) (conn : handle)
    (remote : PeerID) (s : State) (e : errmsg) :
  host_new_stream env (clock s) remote Protocol = inl e ->
  let r := handleLocalConnection env conn remote s in
  res r = Ret tt
  /\ events r
     = [forwarding_local remote; ENewStream remote Protocol None;
        ELog (Sprintln [e])]
  /\ final r = after_call s
  /\ endpoints (final r) !! conn = endpoints s !! conn
  /\ (EClose conn ∉ events r)
  /\ (forall t, EGo t ∉ events r).
Proof.
  intros Hstream r. subst r.
  assert (Hrun : handleLocalConnection env conn remote s
                 = mkResult (Ret tt)
                     [forwarding_local remote; ENewStream remote Protocol None;
                      ELog (Sprintln [e])] (after_call s)).
  { unfold handleLocalConnection, hostNewStream, bind, tick; simpl.
    rewrite Hstream. reflexivity. }
  rewrite Hrun. cbn [res events final].
  repeat split.
  - intros H.
    repeat (apply elem_of_cons in H as [H | H]; [discriminate H |]).
    inversion H.
  - intros t H.
    repeat (apply elem_of_cons in H as [H | H]; [discriminate H |]).
    inversion H.
Qed.

Lemma failed_stream_leaves_conn_open_witness :
  let env := Sample.collaborators Sample.dial_ok Sample.listen_ok
               Sample.connect_ok Sample.stream_fails Sample.make_ok in
  ep_closed <$> (endpoints
                   (final (handleLocalConnection env 0%nat "QmA"
                             (Sample.holding Sample.idle))) !! 0%nat)
  = Some false.
Proof.
  cbv zeta.
  destruct (failed_stream_leaves_conn_open
              (Sample.collaborators Sample.dial_ok Sample.listen_ok
                 Sample.connect_ok Sample.stream_fails Sample.make_ok)
              0%nat "QmA" (Sample.holding Sample.idle) "protocol not supported")
    as (_ & _ & _ & H & _); [reflexivity |].
  rewrite H. vm_compute. reflexivity.
Defined.

Lemma dialLoop_S (env : Env) (n : nat) (stream : handle) (port : Z) (s : State) :
  dialLoop env (S n) stream port s
  = match net_dial env (clock s) port with
    | inl e =>
        let r := dialLoop env n stream port (after_call s) in
        mkResult (res r)
          ([EDial port None; retrying e; ESleep Second] ++ events r) (final r)
    | inr ep =>
        let conn := next_handle s in
        mkResult (Ret true)
          [EDial port (Some conn); EGo (TForward stream conn);
           EGo (TForward conn stream)]
          (final (alloc ep (after_call s)))
    end.
Proof.
  cbn [dialLoop]. unfold netDial, bind, tick. cbn [res events final].
  destruct (net_dial env (clock s) port) as [e | ep]; reflexivity.
Qed.

(** [n] dials in a row are refused: the loop runs to its end. *)
Lemma dialLoop_refused (env : Env) (n : nat) (stream : handle) (port : Z) :
  forall s,
    (forall j, (j < n)%nat -> exists e, net_dial env (j + clock s) port = inl e) ->
    dialLoop env n stream port s
    = mkResult (Ret false) (failed_dials env port (clock s) n) (after_calls n s).
Proof.
  induction n as [| n IH]; intros s Hall.
  - simpl. unfold ret, failed_dials, after_calls. simpl. destruct s; reflexivity.
  - rewrite dialLoop_S.
    destruct (Hall 0%nat ltac:(lia)) as [e He]. simpl in He. rewrite He.
    cbv zeta. rewrite IH.
    + unfold failed_dials. cbn [seq flat_map res events final].
      rewrite He. unfold after_calls. cbn [clock after_call next_handle endpoints
        peerChan peerChan_closed].
      rewrite Nat.add_succ_r. reflexivity.
    + intros j Hj. destruct (Hall (S j) ltac:(lia)) as [e' He'].
      exists e'. cbn [clock after_call]. rewrite Nat.add_succ_r. exact He'.
Qed.

(** The dial of turn [k] is the first that is answered. *)
Lemma dialLoop_answered (env : Env) (n k : nat) (stream : handle) (port : Z)
    (ep : endpoint) :
  forall s,
    (k < n)%nat ->
    (forall j, (j < k)%nat -> exists e, net_dial env (j + clock s) port = inl e) ->
    net_dial env (k + clock s) port = inr ep ->
    dialLoop env n stream port s
    = mkResult (Ret true)
        (failed_dials env port (clock s) k
           ++ [EDial port (Some (next_handle s));
               EGo (TForward stream (next_handle s));
               EGo (TForward (next_handle s) stream)])
        (final (alloc ep (after_calls (S k) s))).
Proof.
  revert n. induction k as [| k IH]; intros n s Hk Hall Hok.
  - destruct n as [| n]; [lia |].
    rewrite dialLoop_S. simpl in Hok. rewrite Hok.
    unfold failed_dials, after_calls. simpl. reflexivity.
  - destruct n as [| n]; [lia |].
    rewrite dialLoop_S.
    destruct (Hall 0%nat ltac:(lia)) as [e He]. simpl in He. rewrite He.
    cbv zeta. rewrite (IH n (after_call s)).
    + unfold failed_dials. cbn [seq flat_map res events final].
      rewrite He. unfold after_calls.
      cbn [clock after_call next_handle endpoints peerChan peerChan_closed].
      rewrite !Nat.add_succ_r. rewrite <- app_assoc. reflexivity.
    + lia.
    + intros j Hj. destruct (Hall (S j) ltac:(lia)) as [e' He'].
      exists e'. cbn [clock after_call]. rewrite Nat.add_succ_r. exact He'.
    + cbn [clock after_call]. rewrite Nat.add_succ_r. exact Hok.
Qed.

Lemma handleRemoteConnection_run (env : Env) (stream : handle) (s : State) :
  let port := drawn env 20000 s in
  let r := dialLoop env 60 stream port (after_call s) in
  handleRemoteConnection env stream s
  = mkResult
      (match res r with
       | Ret _ => Ret tt
       | Exit c => Exit c
       | Blocked => Blocked
       end)
      ([forwarding_remote; EGo (TRunExternal "incoming-connection" port)]
         ++ events r
         ++ match res r with
            | Ret false => [unreachable]
            | _ => []
            end)
      (final r).
Proof.
  intros port r. unfold handleRemoteConnection.
  erewrite bind_Ret by reflexivity. rewrite (bind_Ret (randIntn env 10000) _ _ _ eq_refl).
  rewrite randIntn_run. cbn [res events final].
  erewrite bind_Ret by reflexivity. cbn [res events final go emit logPrintln].
  change (20000 + rand_raw env (clock s) `mod` 10000)%Z with port.
  unfold bind. fold r.
  destruct (res r) as [[|] | c |]; cbn [res events final ret logPrintln emit];
    rewrite ?app_nil_r; reflexivity.
Qed.

(** Every event of the dial loop is a dial of [port], a warning, a
    second of sleep or the start of a forwarder. *)
Lemma dialLoop_events (env : Env) (n : nat) (stream : handle) (port : Z) :
  forall s ev,
    ev ∈ events (dialLoop env n stream port s) ->
    (exists c, ev = EDial port c) \/ (exists e, ev = retrying e)
    \/ ev = ESleep Second \/ (exists d sr, ev = EGo (TForward d sr)).
Proof.
  induction n as [| n IH]; intros s ev Hev.
  - inversion Hev.
  - rewrite dialLoop_S in Hev.
    destruct (net_dial env (clock s) port) as [e | ep]; cbn in Hev.
    + rewrite !elem_of_cons in Hev.
      destruct Hev as [-> | [-> | [-> | Hev]]]; eauto 6.
    + rewrite !elem_of_cons in Hev.
      destruct Hev as [-> | [-> | [-> | Hev]]]; eauto 8.
      inversion Hev.
Qed.

(** The loop dials at most as often as it has turns. *)
Lemma dialLoop_dials (env : Env) (n : nat) (stream : handle) (port : Z) :
  forall s, (dials_in (events (dialLoop env n stream port s)) <= n)%nat.
Proof.
  induction n as [| n IH]; intros s.
  - simpl. unfold dials_in. simpl. lia.
  - rewrite dialLoop_S.
    destruct (net_dial env (clock s) port) as [e | ep]; cbn.
    + specialize (IH (after_call s)). unfold dials_in in *. cbn. lia.
    + unfold dials_in. cbn. lia.
Qed.

Lemma dials_in_app (tr1 tr2 : list event) :
  dials_in (tr1 ++ tr2) = (dials_in tr1 + dials_in tr2)%nat.
Proof. unfold dials_in. rewrite List.filter_app, length_app. reflexivity. Qed.

(** However the backend behaves, a call of the handler dials at most 60
    times. *)
Lemma handleRemoteConnection_dials (env : Env) (stream : handle) (s : State) :
  (dials_in (events (handleRemoteConnection env stream s)) <= 60)%nat.
Proof.
  rewrite handleRemoteConnection_run. cbv zeta. cbn [events].
  rewrite !dials_in_app.
  pose proof (dialLoop_dials env 60 stream (drawn env 20000 s) (after_call s)).
  assert (dials_in
            match res (dialLoop env 60 stream (drawn env 20000 s) (after_call s)) with
            | Ret false => [unreachable]
            | _ => []
            end = 0%nat) as ->.
  { destruct (res _) as [[|] | |]; reflexivity. }
  change (dials_in [forwarding_remote;
                    EGo (TRunExternal "incoming-connection" (drawn env 20000 s))])
    with 0%nat.
  lia.
Qed.

(** The backend answers the dial of turn [k]: the handler has dialled
    [k] times in vain, one second apart, starts the two forwarders and
    returns. *)
Lemma handleRemoteConnection_connects (env : Env) (stream : handle) (s : State)
    (k : nat) (ep : endpoint) :
  let port := drawn env 20000 s in
  (k < 60)%nat ->
  (forall j, (j < k)%nat -> exists e, net_dial env (j + S (clock s)) port = inl e) ->
  net_dial env (k + S (clock s)) port = inr ep ->
  handleRemoteConnection env stream s
  = mkResult (Ret tt)
      ([forwarding_remote; EGo (TRunExternal "incoming-connection" port)]
         ++ failed_dials env port (S (clock s)) k
         ++ [EDial port (Some (next_handle s));
             EGo (TForward stream (next_handle s));
             EGo (TForward (next_handle s) stream)])
      (final (alloc ep (after_calls (S k) (after_call s)))).
Proof.
  intros port Hk Hall Hok.
  rewrite handleRemoteConnection_run. cbv zeta. fold port.
  rewrite (dialLoop_answered env 60 k stream port ep (after_call s) Hk Hall Hok).
  cbn [res events final]. rewrite app_nil_r. reflexivity.
Qed.

(** The backend answers none of the 60 dials: the handler logs that it
    gives up and returns.  It has started no forwarder and closed
    nothing: the table of endpoints is as it was, the stream in it. *)
Lemma handleRemoteConnection_gives_up (env : Env) (stream : handle) (s : State) :
  let port := drawn env 20000 s in
  (forall j, (j < 60)%nat -> exists e, net_dial env (j + S (clock s)) port = inl e) ->
  handleRemoteConnection env stream s
  = mkResult (Ret tt)
      ([forwarding_remote; EGo (TRunExternal "incoming-connection" port)]
         ++ failed_dials env port (S (clock s)) 60 ++ [unreachable])
      (after_calls 61 s).
Proof.
  intros port Hall.
  rewrite handleRemoteConnection_run. cbv zeta. fold port.
  rewrite (dialLoop_refused env 60 stream port (after_call s) Hall).
  cbn [res events final]. unfold after_calls. cbn [clock after_call next_handle
    endpoints peerChan peerChan_closed].
  rewrite Nat.add_succ_r. reflexivity.
Qed.

(** C2, where the code departs from it.  The backend answers none of the
    60 dials of an inbound stream (handle 0, open).  The handler dials
    60 times, logs that it could not reach the local server and returns,
    as specified; but it does not close the stream: no [Close] of
    it is among the events, no forwarder that would close it was
    started, and the stream is still open in the final state. *)
Theorem unanswered_dials_leave_stream_open :
  let env := Sample.collaborators Sample.dial_refused Sample.listen_ok
               Sample.connect_ok Sample.stream_ok Sample.make_ok in
  let r := handleRemoteConnection env 0%nat (Sample.holding Sample.idle) in
  res r = Ret tt
  /\ dials_in (events r) = 60%nat
  /\ last (events r) = Some unreachable
  /\ (EClose 0%nat ∉ events r)
  /\ (forall d sr, EGo (TForward d sr) ∉ events r)
  /\ ep_closed <$> (endpoints (final r) !! 0%nat) = Some false.
Proof.
  cbv zeta.
  rewrite handleRemoteConnection_gives_up
    by (intros j _; eexists; reflexivity).
  cbn [res events final].
  split; [reflexivity |].
  split; [vm_compute; reflexivity |].
  split; [vm_compute; reflexivity |].
  split; [| split; [| vm_compute; reflexivity]].
  - intros H. vm_compute in H.
    repeat (apply elem_of_cons in H as [H | H]; [discriminate H |]).
    inversion H.
  - intros d sr H. vm_compute in H.
    repeat (apply elem_of_cons in H as [H | H]; [discriminate H |]).
    inversion H.
Qed.

(** ** Ports and the order of launch *)

Lemma drawn_range (env : Env) (base : Z) (s : State) :
  (base <= drawn env base s <= base + 9999)%Z.
Proof.
  unfold drawn.
  pose proof (Z.mod_pos_bound (rand_raw env (clock s)) 10000 ltac:(lia)).
  lia.
Qed.

Lemma mainLoop_events (env : Env) (relay : string) (peers : list AddrInfo) :
  forall s ev, ev ∈ events (mainLoop env relay peers s) -> outbound_event ev.
Proof.
  induction peers as [| p rest IH]; intros s ev Hev.
  - inversion Hev.
  - rewrite mainLoop_cons in Hev. cbv zeta in Hev.
    pose proof (drawn_range env 30000 (after_call s)) as Hport.
    assert (Hpre : ev = found p \/ ev ∈ events (addRelayAddress env relay p s) ->
                   outbound_event ev).
    { intros [-> | H]; [constructor |].
      apply addRelayAddress_events in H as [line ->]. constructor. }
    destruct (host_connect env (clock s) (relayed env relay p));
      [| destruct (net_listen env _ _);
         [| destruct (cmd_run env _ _ _ _)]];
      cbn [events] in Hev;
      rewrite !elem_of_app, ?elem_of_cons in Hev;
      (destruct Hev as [H | H]; [auto |]);
      try (destruct H as [H | H]; [| solve [eauto]]);
      repeat (destruct H as [H | H]; [rewrite H; constructor; lia |]);
      solve [inversion H | eauto].
Qed.

Lemma makeRandomHost_events (env : Env) (s : State) :
  forall port ok,
    ENewHost port ok ∈ events (makeRandomHost env s) ->
    port = drawn env 10000 s.
Proof.
  intros port ok. unfold makeRandomHost.
  rewrite (bind_Ret (randIntn env 10000) _ _ _ eq_refl).
  rewrite randIntn_run. cbn [res events final].
  unfold bind, tick, logFatal, bind. cbn [res events final clock after_call].
  destruct (libp2p_new env _ _); [| destruct (dht_new env _);
                                    [| destruct (dht_bootstrap env _)]];
    simpl; intros H;
    repeat (apply elem_of_cons in H as [H | H];
            [first [injection H as -> _; reflexivity | discriminate H] |]);
    inversion H.
Qed.

(** The events of the handler after its first two. *)
Lemma handleRemoteConnection_events (env : Env) (stream : handle) (s : State) :
  exists tail,
    events (handleRemoteConnection env stream s)
    = forwarding_remote
        :: EGo (TRunExternal "incoming-connection" (drawn env 20000 s)) :: tail
    /\ forall ev,
         ev ∈ tail ->
         (exists c, ev = EDial (drawn env 20000 s) c) \/ (exists line, ev = ELog line)
         \/ ev = ESleep Second \/ (exists d sr, ev = EGo (TForward d sr)).
Proof.
  rewrite handleRemoteConnection_run. cbv zeta. cbn [events].
  eexists. split; [reflexivity |].
  intros ev Hev. apply elem_of_app in Hev as [Hev | Hev].
  - apply dialLoop_events in Hev as [H | [[e ->] | [H | H]]]; eauto 6.
  - destruct (res _) as [[|] | |]; try (inversion Hev; fail).
    apply elem_of_cons in Hev as [-> | Hev]; [eauto 6 | inversion Hev].
Qed.

(** C8. The handler of an inbound stream draws one port, in 20000 to
    29999, gives it to the incoming backend and dials no other; every
    port the loop of [main] binds and hands to an outgoing backend is in
    30000 to 39999; the port of the transport host is in 10000 to 19999.
    So a port of one kind is never a port of another kind. *)
Theorem ports_in_disjoint_ranges (env : Env) :
  (forall stream s,
     exists port tail,
       (20000 <= port <= 29999)%Z
       /\ events (handleRemoteConnection env stream s)
          = forwarding_remote
              :: EGo (TRunExternal "incoming-connection" port) :: tail
       /\ (forall q c, EDial q c ∈ tail -> q = port)
       /\ (forall ev q, EGo (TRunExternal ev q) ∉ tail))
  /\ (forall relay peers s q ln,
        EListen q ln ∈ events (mainLoop env relay peers s) ->
        (30000 <= q <= 39999)%Z)
  /\ (forall relay peers s name args envv ok,
        EExec name args envv ok ∈ events (mainLoop env relay peers s) ->
        exists q, (30000 <= q <= 39999)%Z /\ envv = [fmtPort q])
  /\ (forall s q ok,
        ENewHost q ok ∈ events (makeRandomHost env s) ->
        (10000 <= q <= 19999)%Z)
  /\ (forall stream s relay peers s' s'' q c,
        EDial q c ∈ events (handleRemoteConnection env stream s) ->
        (forall ln, EListen q ln ∉ events (mainLoop env relay peers s'))
        /\ (forall ok, ENewHost q ok ∉ events (makeRandomHost env s'')))
  /\ (forall relay peers s s' q ln,
        EListen q ln ∈ events (mainLoop env relay peers s) ->
        forall ok, ENewHost q ok ∉ events (makeRandomHost env s')).
Proof.
  assert (Hin : forall stream s q c,
             EDial q c ∈ events (handleRemoteConnection env stream s) ->
             (20000 <= q <= 29999)%Z).
  { intros stream s q c H.
    destruct (handleRemoteConnection_events env stream s) as (tail & Heq & Htail).
    rewrite Heq in H. rewrite !elem_of_cons in H.
    destruct H as [H | [H | H]]; [discriminate H | discriminate H |].
    apply Htail in H as [[c' H] | [[line H] | [H | (d & sr & H)]]];
      try discriminate H.
    injection H as -> _. pose proof (drawn_range env 20000 s). lia. }
  assert (Hout : forall relay peers s q ln,
             EListen q ln ∈ events (mainLoop env relay peers s) ->
             (30000 <= q <= 39999)%Z).
  { intros relay peers s q ln H. apply mainLoop_events in H.
    inversion H; subst; assumption. }
  assert (Hhost : forall s q ok,
             ENewHost q ok ∈ events (makeRandomHost env s) ->
             (10000 <= q <= 19999)%Z).
  { intros s q ok H. apply makeRandomHost_events in H as ->.
    pose proof (drawn_range env 10000 s). lia. }
  split; [| split; [exact Hout | split; [| split; [exact Hhost | split]]]].
  - intros stream s.
    destruct (handleRemoteConnection_events env stream s) as (tail & Heq & Htail).
    exists (drawn env 20000 s), tail.
    split; [pose proof (drawn_range env 20000 s); lia |].
    split; [exact Heq |]. split.
    + intros q c H.
      apply Htail in H as [[c' H] | [[line H] | [H | (d & sr & H)]]];
        try discriminate H.
      injection H as -> _. reflexivity.
    + intros ev q H.
      apply Htail in H as [[c' H] | [[line H] | [H | (d & sr & H)]]];
        discriminate H.
  - intros relay peers s name args envv ok H. apply mainLoop_events in H.
    inversion H; subst. eauto.
  - intros stream s relay peers s' s'' q c H. apply Hin in H.
    split; intros x Hx; [apply Hout in Hx | apply Hhost in Hx]; lia.
  - intros relay peers s s' q ln H ok Hx.
    apply Hout in H. apply Hhost in Hx. lia.
Qed.

Lemma ports_in_disjoint_ranges_witness :
  let tr := events (mainLoop (Sample.collaborators Sample.dial_ok Sample.listen_ok
                                Sample.connect_not_A Sample.stream_ok Sample.make_ok)
                      "" [Sample.peerA; Sample.peerB] Sample.start) in
  EListen 39294 (Some 0%nat) ∈ tr /\ (30000 <= 39294 <= 39999)%Z.
Proof.
  cbv zeta.
  assert (H : EListen 39294 (Some 0%nat)
              ∈ events (mainLoop (Sample.collaborators Sample.dial_ok
                                    Sample.listen_ok Sample.connect_not_A
                                    Sample.stream_ok Sample.make_ok)
                          "" [Sample.peerA; Sample.peerB] Sample.start)).
  { vm_compute. do 6 apply list_elem_of_further. apply list_elem_of_here. }
  split; [exact H |].
  destruct (ports_in_disjoint_ranges
              (Sample.collaborators Sample.dial_ok Sample.listen_ok
                 Sample.connect_not_A Sample.stream_ok Sample.make_ok))
    as (_ & Hout & _).
  exact (Hout _ _ _ _ _ H).
Defined.

(** *** The order of listener and backend *)








(** ** The byte forwarder *)

Lemma epRead_data (h : handle) (s : State) (ep : endpoint) (c : list byte)
    (rest : list (list byte)) :
  endpoints s !! h = Some ep ->
  ep_closed ep = false ->
  ep_in ep = c :: rest ->
  epRead h s
  = mkResult (Ret (RData c)) []
      (with_endpoints (<[h := with_in ep rest]> (endpoints s)) s).
Proof.
  intros Hl Hc Hin. unfold epRead. rewrite Hl, Hc, Hin. reflexivity.
Qed.

Lemma epRead_end (h : handle) (s : State) (ep : endpoint) :
  endpoints s !! h = Some ep ->
  ep_closed ep = false ->
  ep_in ep = [] ->
  epRead h s
  = mkResult (Ret (match ep_rerr ep with None => REOF | Some e => RErr e end)) [] s.
Proof.
  intros Hl Hc Hin. unfold epRead. rewrite Hl, Hc, Hin.
  destruct (ep_rerr ep); reflexivity.
Qed.

(** A read returns a chunk and shortens the input by it, or it returns
    the end of the input or an error and changes nothing. *)
Lemma epRead_cases (h : handle) (s : State) :
  (exists ep c rest,
     endpoints s !! h = Some ep /\ ep_in ep = c :: rest
     /\ epRead h s
        = mkResult (Ret (RData c)) []
            (with_endpoints (<[h := with_in ep rest]> (endpoints s)) s))
  \/ (epRead h s = mkResult (Ret REOF) [] s)
  \/ (exists e, epRead h s = mkResult (Ret (RErr e)) [] s).
Proof.
  unfold epRead.
  destruct (endpoints s !! h) as [ep |] eqn:Hl; [| right; right; eauto].
  destruct (ep_closed ep); [right; right; eauto |].
  destruct (ep_in ep) as [| c rest] eqn:Hin.
  - destruct (ep_rerr ep); [right; right; eauto | right; left; reflexivity].
  - left. exists ep, c, rest. repeat split; assumption.
Qed.

Lemma pending_insert_in (h : handle) (s : State) (ep : endpoint)
    (rest : list (list byte)) :
  pending h (with_endpoints (<[h := with_in ep rest]> (endpoints s)) s)
  = length rest.
Proof. unfold pending. cbn [endpoints with_endpoints]. rewrite lookup_insert_eq. reflexivity. Qed.

(** A write returns, emits nothing, and leaves every input and the set
    of handles as they were. *)
Lemma epWrite_cases (h : handle) (data : list byte) (s : State) :
  exists ew s',
    epWrite h data s = mkResult (Ret ew) [] s'
    /\ (forall k, pending k s' = pending k s)
    /\ (forall k, is_Some (endpoints s !! k) -> is_Some (endpoints s' !! k)).
Proof.
  assert (Hins : forall ep cap out,
             endpoints s !! h = Some ep ->
             (forall k,
                pending k (with_endpoints (<[h := with_out ep cap out]> (endpoints s)) s)
                = pending k s)
             /\ (forall k,
                   is_Some (endpoints s !! k) ->
                   is_Some (<[h := with_out ep cap out]> (endpoints s) !! k))).
  { intros ep cap out Hl. split; intros k.
    - unfold pending. cbn [endpoints with_endpoints].
      destruct (decide (h = k)) as [-> | Hne].
      + rewrite lookup_insert_eq, Hl. reflexivity.
      + rewrite lookup_insert_ne by exact Hne. reflexivity.
    - intros Hk. destruct (decide (h = k)) as [-> | Hne].
      + rewrite lookup_insert_eq. eauto.
      + rewrite lookup_insert_ne by exact Hne. exact Hk. }
  unfold epWrite.
  destruct (endpoints s !! h) as [ep |] eqn:Hl; [| exists (Some errClosed), s; auto].
  destruct (ep_closed ep); [exists (Some errClosed), s; auto |].
  destruct (ep_wcap ep) as [cap |].
  - destruct (decide (length data <= cap)%nat).
    + eexists None, _. split; [reflexivity |]. apply Hins. reflexivity.
    + eexists (Some errBrokenPipe), _. split; [reflexivity |]. apply Hins. reflexivity.
  - eexists None, _. split; [reflexivity |]. apply Hins. reflexivity.
Qed.

(** The copy ends: with one turn more than there are pending chunks the
    loop returns.  It emits nothing and drops no handle. *)
Lemma copyLoop_total (dst src : handle) :
  forall fuel s,
    (pending src s < fuel)%nat ->
    exists err,
      res (copyLoop fuel dst src s) = Ret err
      /\ events (copyLoop fuel dst src s) = []
      /\ forall k,
           is_Some (endpoints s !! k) ->
           is_Some (endpoints (final (copyLoop fuel dst src s)) !! k).
Proof.
  induction fuel as [| fuel IH]; intros s Hlt; [lia |].
  cbn [copyLoop].
  destruct (epRead_cases src s)
    as [(ep & c & rest & Hl & Hin & Hread) | [Hread | [e Hread]]].
  - rewrite (bind_Ret _ _ _ _ (f_equal res Hread)). rewrite Hread.
    cbn [res events final app].
    set (s1 := with_endpoints (<[src := with_in ep rest]> (endpoints s)) s).
    assert (Hp1 : (pending src s1 < fuel)%nat).
    { unfold s1. rewrite pending_insert_in.
      unfold pending in Hlt. rewrite Hl, Hin in Hlt. simpl in Hlt. lia. }
    assert (Hs1 : forall k, is_Some (endpoints s !! k) -> is_Some (endpoints s1 !! k)).
    { intros k Hk. unfold s1. cbn [endpoints with_endpoints].
      destruct (decide (src = k)) as [-> | Hne].
      - rewrite lookup_insert_eq. eauto.
      - rewrite lookup_insert_ne by exact Hne. exact Hk. }
    destruct c as [| x xs].
    + destruct (IH s1 Hp1) as (err & Hres & Hev & Hdom).
      exists err. cbn [res events final]. repeat split; auto.
    + destruct (epWrite_cases dst (x :: xs) s1) as (ew & s2 & Hw & Hp2 & Hs2).
      rewrite (bind_Ret _ _ _ _ (f_equal res Hw)). rewrite Hw.
      cbn [res events final app].
      destruct ew as [e |].
      * exists (Some e). cbn [res events final ret]. repeat split; auto.
      * destruct (IH s2 ltac:(rewrite Hp2; exact Hp1)) as (err & Hres & Hev & Hdom).
        exists err. repeat split; auto.
  - rewrite (bind_Ret _ _ _ _ (f_equal res Hread)). rewrite Hread.
    exists None. cbn [res events final ret app]. repeat split; auto.
  - rewrite (bind_Ret _ _ _ _ (f_equal res Hread)). rewrite Hread.
    exists (Some e). cbn [res events final ret app]. repeat split; auto.
Qed.





(** * Further properties of the handlers *)

Lemma dialLoop_returns (env : Env) (n : nat) (stream : handle) (port : Z) :
  forall s, exists b, res (dialLoop env n stream port s) = Ret b.
Proof.
  induction n as [| n IH]; intros s.
  - exists false. reflexivity.
  - rewrite dialLoop_S.
    destruct (net_dial env (clock s) port) as [e | ep]; cbn [res].
    + apply IH.
    + exists true. reflexivity.
Qed.


Lemma slept_app (tr1 tr2 : list event) :
  slept (tr1 ++ tr2) = (slept tr1 + slept tr2)%Z.
Proof.
  induction tr1 as [| e tr1 IH]; [reflexivity |].
  cbn [app slept foldr]. fold (slept (tr1 ++ tr2)). fold (slept tr1).
  rewrite IH. destruct e; lia.
Qed.

Lemma refused_in_app (tr1 tr2 : list event) :
  refused_in (tr1 ++ tr2) = (refused_in tr1 + refused_in tr2)%nat.
Proof. unfold refused_in. rewrite List.filter_app, length_app. reflexivity. Qed.

Lemma dialLoop_slept (env : Env) (n : nat) (stream : handle) (port : Z) :
  forall s,
    let tr := events (dialLoop env n stream port s) in
    slept tr = (Second * Z.of_nat (refused_in tr))%Z
    /\ (refused_in tr <= n)%nat
    /\ (res (dialLoop env n stream port s) = Ret false -> refused_in tr = n).
Proof.
  induction n as [| n IH]; intros s; cbv zeta.
  - cbn. split; [reflexivity | split; [lia | reflexivity]].
  - rewrite dialLoop_S.
    destruct (net_dial env (clock s) port) as [e | ep]; cbn [res events].
    + destruct (IH (after_call s)) as (Hs & Hle & Hall).
      rewrite slept_app, refused_in_app, Hs.
      change (slept [EDial port None; retrying e; ESleep Second]) with (Second + 0)%Z.
      change (refused_in [EDial port None; retrying e; ESleep Second]) with 1%nat.
      unfold Second in *. split; [lia | split; [lia |]].
      intros H. apply Hall in H. lia.
    + cbn. unfold Second. split; [lia | split; [lia | discriminate]].
Qed.

(** X2. In every run of the handler of an inbound stream the time slept
    is one second for each refused dial, the last one included, and at
    most 60 dials are refused; when the handler gives up it has slept a
    full 60 seconds before it logs that the server is out of reach. *)
Theorem handler_sleeps_once_per_refusal (env : Env) (stream : handle) (s : State) :
  let tr := events (handleRemoteConnection env stream s) in
  slept tr = (Second * Z.of_nat (refused_in tr))%Z
  /\ (refused_in tr <= dials_in tr <= 60)%nat
  /\ (unreachable ∈ tr -> slept tr = (60 * Second)%Z).
Proof.
  cbv zeta. pose proof (handleRemoteConnection_dials env stream s) as Hd.
  rewrite handleRemoteConnection_run in *. cbv zeta in *. cbn [events] in *.
  set (port := drawn env 20000 s) in *.
  destruct (dialLoop_slept env 60 stream port (after_call s)) as (Hs & Hle & Hall).
  set (r := dialLoop env 60 stream port (after_call s)) in *.
  assert (Hlast : slept match res r with Ret false => [unreachable] | _ => [] end = 0%Z
                  /\ refused_in match res r with Ret false => [unreachable] | _ => [] end
                     = 0%nat)
    by (destruct (res r) as [[|] | |]; split; reflexivity).
  destruct Hlast as [Hl1 Hl2].
  rewrite !slept_app, !refused_in_app, Hl1, Hl2, Hs.
  change (slept [forwarding_remote; EGo (TRunExternal "incoming-connection" port)])
    with 0%Z.
  change (refused_in [forwarding_remote; EGo (TRunExternal "incoming-connection" port)])
    with 0%nat.
  assert (Hrd : (refused_in (events r) <= dials_in (events r))%nat).
  { unfold refused_in, dials_in. generalize (events r). intros tr.
    induction tr as [| e tr IH]; [reflexivity |].
    destruct e; cbn in *; try lia;
      match goal with c : option nat |- _ => destruct c; cbn in *; lia end. }
  rewrite !dials_in_app in *. unfold Second in *.
  split; [lia |]. split.
  - change (dials_in [forwarding_remote;
                      EGo (TRunExternal "incoming-connection" port)]) with 0%nat in *.
    lia.
  - intros Hin. rewrite !elem_of_app, !elem_of_cons in Hin.
    destruct (res r) as [[|] | |] eqn:Hres.
    + exfalso. destruct Hin as [[H | [H | H]] | [H | H]];
        [vm_compute in H; discriminate H | discriminate H | inversion H
        | | inversion H].
      apply dialLoop_events in H as [[c H] | [[e H] | [H | (d & sr & H)]]];
        discriminate H.
    + rewrite (Hall eq_refl). lia.
    + exfalso. destruct (dialLoop_returns env 60 stream port (after_call s)) as [b Hb].
      fold r in Hb. congruence.
    + exfalso. destruct (dialLoop_returns env 60 stream port (after_call s)) as [b Hb].
      fold r in Hb. congruence.
Qed.

Lemma handler_sleeps_once_per_refusal_witness :
  let env := Sample.collaborators Sample.dial_refused Sample.listen_ok
               Sample.connect_ok Sample.stream_ok Sample.make_ok in
  slept (events (handleRemoteConnection env 0%nat (Sample.holding Sample.idle)))
  = (60 * Second)%Z.
Proof.
  cbv zeta.
  apply (handler_sleeps_once_per_refusal
           (Sample.collaborators Sample.dial_refused Sample.listen_ok
              Sample.connect_ok Sample.stream_ok Sample.make_ok)
           0%nat (Sample.holding Sample.idle)).
  rewrite handleRemoteConnection_gives_up
    by (intros j _; eexists; reflexivity).
  cbn [events]. rewrite !elem_of_app. right. right. apply list_elem_of_here.
Defined.

(** X3. When the backend refuses the first [k] dials of the handler of
    an inbound stream and answers the next one, [k < 60], the handler
    has slept one second after each refusal, starts the forwarder from
    the new connection to the stream and the one from the stream to the
    connection, and returns; the new connection is the one endpoint it
    adds to the table, and it closes nothing. *)
Theorem inbound_tunnel_on_first_answer (env : Env) (stream : handle) (s : State)
    (k : nat) (ep : endpoint) :
  let port := drawn env 20000 s in
  let conn := next_handle s in
  (k < 60)%nat ->
  (forall j, (j < k)%nat -> exists e, net_dial env (j + S (clock s)) port = inl e) ->
  net_dial env (k + S (clock s)) port = inr ep ->
  let r := handleRemoteConnection env stream s in
  res r = Ret tt
  /\ events r
     = [forwarding_remote; EGo (TRunExternal "incoming-connection" port)]
         ++ failed_dials env port (S (clock s)) k
         ++ [EDial port (Some conn); EGo (TForward stream conn);
             EGo (TForward conn stream)]
  /\ endpoints (final r) = <[conn := ep]> (endpoints s)
  /\ (forall h, EClose h ∉ events r).
Proof.
  intros port conn Hk Hall Hok r. subst r.
  rewrite (handleRemoteConnection_connects env stream s k ep Hk Hall Hok).
  fold port. fold conn. cbn [res events final].
  split; [reflexivity |]. split; [reflexivity |]. split; [reflexivity |].
  intros h H. rewrite !elem_of_app, !elem_of_cons in H.
  destruct H as [[H | [H | H]] | [H | [H | [H | [H | H]]]]];
    try discriminate H; try (inversion H; fail).
  unfold failed_dials in H. apply list_elem_of_In, in_flat_map in H.
  destruct H as (t & _ & H). destruct (net_dial env t port); [| inversion H].
  cbn in H. destruct H as [H | [H | [H | []]]]; discriminate H.
Qed.

Lemma inbound_tunnel_on_first_answer_witness :
  let env := Sample.collaborators Sample.dial_third Sample.listen_ok
               Sample.connect_ok Sample.stream_ok Sample.make_ok in
  endpoints (final (handleRemoteConnection env 0%nat (Sample.holding Sample.idle)))
  = <[1%nat := Sample.idle]> (endpoints (Sample.holding Sample.idle)).
Proof.
  cbv zeta.
  destruct (inbound_tunnel_on_first_answer
              (Sample.collaborators Sample.dial_third Sample.listen_ok
                 Sample.connect_ok Sample.stream_ok Sample.make_ok)
              0%nat (Sample.holding Sample.idle) 2%nat Sample.idle)
    as (_ & _ & H & _).
  - lia.
  - intros j Hj. destruct j as [| [| j]]; [eexists; reflexivity .. | lia].
  - reflexivity.
  - exact H.
Defined.

(** X4. When the stream to the remote peer opens, the handler of an
    accepted local connection starts the forwarder from the connection
    to the stream and the one from the stream to the connection, and
    returns; the stream is the one endpoint it adds to the table. *)
Theorem outbound_tunnel_on_stream (env : Env) (conn : handle) (remote : PeerID)
    (s : State) (ep : endpoint) :
  host_new_stream env (clock s) remote Protocol = inr ep ->
  let r := handleLocalConnection env conn remote s in
  let stream := next_handle s in
  res r = Ret tt
  /\ events r
     = [forwarding_local remote; ENewStream remote Protocol (Some stream);
        EGo (TForward stream conn); EGo (TForward conn stream)]
  /\ endpoints (final r) = <[stream := ep]> (endpoints s)
  /\ next_handle (final r) = S stream.
Proof.
  intros Hstream r stream. subst r stream.
  unfold handleLocalConnection, hostNewStream, bind, tick; simpl.
  rewrite Hstream. simpl. repeat split.
Qed.

Lemma outbound_tunnel_on_stream_witness :
  events (handleLocalConnection Sample.all_well 0%nat "QmA"
            (Sample.holding Sample.idle))
  = [forwarding_local "QmA"; ENewStream "QmA" Protocol (Some 1%nat);
     EGo (TForward 1%nat 0%nat); EGo (TForward 0%nat 1%nat)].
Proof.
  destruct (outbound_tunnel_on_stream Sample.all_well 0%nat "QmA"
              (Sample.holding Sample.idle) Sample.idle)
    as (_ & H & _); [reflexivity |].
  exact H.
Defined.

(** * The accept loop *)

Lemma acceptLoop_S (env : Env) (n : nat) (ln : handle) (remote : PeerID) (s : State) :
  acceptLoop env (S n) ln remote s
  = match ln_accept env (clock s) ln with
    | inl e => mkResult (Exit 1) [EAccept ln None; ELog e] (after_call s)
    | inr ep =>
        let conn := next_handle s in
        let r := acceptLoop env n ln remote (final (alloc ep (after_call s))) in
        mkResult (res r)
          ([EAccept ln (Some conn); EGo (THandleLocalConnection conn remote)]
             ++ events r)
          (final r)
    end.
Proof.
  cbn [acceptLoop]. unfold lnAccept, bind, tick, logFatal, bind.
  cbn [res events final].
  destruct (ln_accept env (clock s) ln) as [e | ep]; reflexivity.
Qed.

(** X5. The accept loop of a listener hands every connection it accepts
    to a handler of its own, for the peer the listener was opened for;
    when an accept fails, after [k] connections, the error is printed
    and the whole process exits with status 1. *)
Theorem accept_failure_exits (env : Env) (ln : handle) (remote : PeerID)
    (k : nat) (e : errmsg) :
  forall n s,
    (k < n)%nat ->
    (forall j, (j < k)%nat -> exists ep, ln_accept env (j + clock s) ln = inr ep) ->
    ln_accept env (k + clock s) ln = inl e ->
    let r := acceptLoop env n ln remote s in
    res r = Exit 1
    /\ events r
       = accepted ln remote (next_handle s) k ++ [EAccept ln None; ELog e]
    /\ next_handle (final r) = (k + next_handle s)%nat.
Proof.
  induction k as [| k IH]; intros n s Hk Hall Hfail; cbv zeta;
    (destruct n as [| n]; [lia |]); rewrite acceptLoop_S.
  - simpl in Hfail. rewrite Hfail. repeat split.
  - destruct (Hall 0%nat ltac:(lia)) as [ep Hep]. simpl in Hep. rewrite Hep.
    cbv zeta. cbn [res events final].
    destruct (IH n (final (alloc ep (after_call s)))) as (Hres & Hev & Hnext).
    + lia.
    + intros j Hj. destruct (Hall (S j) ltac:(lia)) as [ep' Hep'].
      exists ep'. cbn [alloc final clock after_call]. rewrite Nat.add_succ_r.
      exact Hep'.
    + cbn [alloc final clock after_call]. rewrite Nat.add_succ_r. exact Hfail.
    + rewrite Hres, Hev, Hnext. cbn [alloc final next_handle after_call].
      unfold accepted. cbn [seq flat_map]. rewrite <- app_assoc.
      repeat split. lia.
Qed.

Lemma accept_failure_exits_witness :
  let env := mkEnv "QmSelf" [] (fun _ => 0%Z) (fun _ _ => None) (fun _ => None)
               (fun _ => None) (fun _ _ => inr [])
               Sample.dial_ok Sample.listen_ok
               (fun t _ => if decide (t < 2)%nat then inr Sample.idle
                           else inl "accept: too many open files")
               Sample.connect_ok Sample.stream_ok Sample.make_ok
               (fun _ _ => None) (fun _ _ _ => None)
               (fun a => inr a) (fun a => inr (mkAddrInfo a [a])) in
  res (acceptLoop env 5 0%nat "QmA" (mkState 0 1 ∅ [] false)) = Exit 1.
Proof.
  cbv zeta.
  match goal with
  | |- res (acceptLoop ?env _ _ _ _) = _ =>
      destruct (accept_failure_exits env 0%nat "QmA" 2%nat
                  "accept: too many open files" 5%nat (mkState 0 1 ∅ [] false))
        as (H & _)
  end.
  - lia.
  - intros j Hj. destruct j as [| [| j]]; [eexists; reflexivity .. | lia].
  - reflexivity.
  - exact H.
Defined.

(** X6. Whatever the listener delivers and for however many turns, the
    accept loop starts nothing but handlers of local connections, each
    for the peer the listener was opened for and each on a connection
    that did not exist before the loop; it closes nothing. *)
Theorem accept_loop_hands_over (env : Env) (ln : handle) (remote : PeerID) :
  forall n s,
    (forall t,
       EGo t ∈ events (acceptLoop env n ln remote s) ->
       exists conn,
         t = THandleLocalConnection conn remote /\ (next_handle s <= conn)%nat)
    /\ (forall h, EClose h ∉ events (acceptLoop env n ln remote s)).
Proof.
  induction n as [| n IH]; intros s.
  - split; [intros t H | intros h H]; inversion H.
  - rewrite acceptLoop_S.
    destruct (ln_accept env (clock s) ln) as [e | ep]; cbv zeta; cbn [events].
    + split; [intros t H | intros h H];
        rewrite !elem_of_cons in H; destruct H as [H | [H | H]];
        try discriminate H; inversion H.
    + destruct (IH (final (alloc ep (after_call s)))) as [Hgo Hclose].
      split.
      * intros t H. rewrite elem_of_app, !elem_of_cons in H.
        destruct H as [[H | [H | H]] | H];
          [discriminate H | | inversion H |].
        -- injection H as ->. eexists. split; [reflexivity | lia].
        -- apply Hgo in H as (conn & -> & Hle). eexists. split; [reflexivity |].
           cbn [alloc final next_handle after_call] in Hle. lia.
      * intros h H. rewrite elem_of_app, !elem_of_cons in H.
        destruct H as [[H | [H | H]] | H];
          [discriminate H | discriminate H | inversion H |].
        exact (Hclose h H).
Qed.

Lemma accept_loop_hands_over_witness :
  exists conn,
    THandleLocalConnection 1%nat "QmA" = THandleLocalConnection conn "QmA"
    /\ (1 <= conn)%nat.
Proof.
  destruct (accept_loop_hands_over Sample.all_well 0%nat "QmA" 2%nat
              (mkState 0 1 ∅ [] false)) as [H _].
  apply H. vm_compute. apply list_elem_of_further, list_elem_of_here.
Defined.

(** * Tunnels *)







Lemma copyLoop_prefix (dst src : handle) :
  src <> dst ->
  forall fuel s a b,
    endpoints s !! src = Some a ->
    endpoints s !! dst = Some b ->
    exists w b',
      endpoints (final (copyLoop fuel dst src s)) !! dst = Some b'
      /\ ep_out b' = ep_out b ++ w
      /\ w `prefix_of` concat (ep_in a).
Proof.
  intros Hne. induction fuel as [| fuel IH]; intros s a b Ha Hb.
  - exists [], b.
    split; [exact Hb | split; [symmetry; apply app_nil_r | apply prefix_nil]].
  - cbn [copyLoop].
    destruct (ep_closed a) eqn:Hac.
    { assert (Hread : epRead src s = mkResult (Ret (RErr errClosed)) [] s)
        by (unfold epRead; rewrite Ha, Hac; reflexivity).
      rewrite (bind_Ret _ _ _ _ (f_equal res Hread)). rewrite Hread.
      exists [], b. cbn [res events final ret].
      split; [exact Hb | split; [symmetry; apply app_nil_r | apply prefix_nil]]. }
    destruct (ep_in a) as [| c rest] eqn:Hin.
    { pose proof (epRead_end src s a Ha Hac Hin) as Hread.
      rewrite (bind_Ret _ _ _ _ (f_equal res Hread)). rewrite Hread.
      exists [], b.
      destruct (ep_rerr a); cbn [res events final ret];
        (split; [exact Hb | split; [symmetry; apply app_nil_r | apply prefix_nil]]). }
    pose proof (epRead_data src s a c rest Ha Hac Hin) as Hread.
    rewrite (bind_Ret _ _ _ _ (f_equal res Hread)). rewrite Hread.
    cbn [res events final app].
    set (s1 := with_endpoints (<[src := with_in a rest]> (endpoints s)) s).
    assert (Ha1 : endpoints s1 !! src = Some (with_in a rest))
      by (unfold s1; cbn [endpoints with_endpoints]; apply lookup_insert_eq).
    assert (Hb1 : endpoints s1 !! dst = Some b)
      by (unfold s1; cbn [endpoints with_endpoints];
          rewrite lookup_insert_ne by exact Hne; exact Hb).
    destruct c as [| x xs].
    { destruct (IH s1 (with_in a rest) b Ha1 Hb1) as (w & b' & Hl & Hout & Hpre).
      exists w, b'. split; [exact Hl | split; [exact Hout | exact Hpre]]. }
    assert (Hgo : forall b2 add,
               epWrite dst (x :: xs) s1
               = mkResult (Ret None) []
                   (with_endpoints (<[dst := b2]> (endpoints s1)) s1) ->
               ep_out b2 = ep_out b ++ x :: xs ->
               add = x :: xs ->
               exists w b',
                 endpoints
                   (final
                      ((do ew <- epWrite dst (x :: xs);
                        match ew with
                        | Some e => ret (Some e)
                        | None => copyLoop fuel dst src
                        end) s1)) !! dst = Some b'
                 /\ ep_out b' = ep_out b ++ w
                 /\ w `prefix_of` concat (add :: rest)).
    { intros b2 add Hw Hout2 ->.
      rewrite (bind_Ret _ _ _ _ (f_equal res Hw)). rewrite Hw.
      cbn [res events final app].
      set (s2 := with_endpoints (<[dst := b2]> (endpoints s1)) s1).
      assert (Ha2 : endpoints s2 !! src = Some (with_in a rest))
        by (unfold s2; cbn [endpoints with_endpoints];
            rewrite lookup_insert_ne by (intros H; apply Hne; symmetry; exact H);
            exact Ha1).
      assert (Hb2 : endpoints s2 !! dst = Some b2)
        by (unfold s2; cbn [endpoints with_endpoints]; apply lookup_insert_eq).
      destruct (IH s2 (with_in a rest) b2 Ha2 Hb2) as (w & b' & Hl & Hout & Hpre).
      exists ((x :: xs) ++ w), b'. split; [exact Hl |]. split.
      - rewrite Hout, Hout2, <- app_assoc. reflexivity.
      - cbn [concat]. apply prefix_app. exact Hpre. }
    destruct (ep_closed b) eqn:Hbc.
    { assert (Hw : epWrite dst (x :: xs) s1 = mkResult (Ret (Some errClosed)) [] s1)
        by (unfold epWrite; rewrite Hb1, Hbc; reflexivity).
      rewrite (bind_Ret _ _ _ _ (f_equal res Hw)). rewrite Hw.
      cbn [res events final ret]. exists [], b.
      split; [exact Hb1 | split; [symmetry; apply app_nil_r | apply prefix_nil]]. }
    destruct (ep_wcap b) as [cap |] eqn:Hcap.
    + destruct (decide (length (x :: xs) <= cap)%nat) as [Hfit | Hover].
      * apply (Hgo (with_out b (Some (cap - length (x :: xs))%nat)
                      (ep_out b ++ x :: xs)) (x :: xs));
          [| reflexivity | reflexivity].
        unfold epWrite. rewrite Hb1, Hbc, Hcap.
        rewrite decide_True by exact Hfit. reflexivity.
      * assert (Hw : epWrite dst (x :: xs) s1
                     = mkResult (Ret (Some errBrokenPipe)) []
                         (with_endpoints
                            (<[dst := with_out b (Some 0%nat)
                                        (ep_out b ++ take cap (x :: xs))]>
                               (endpoints s1)) s1)).
        { unfold epWrite. rewrite Hb1, Hbc, Hcap.
          rewrite decide_False by exact Hover. reflexivity. }
        rewrite (bind_Ret _ _ _ _ (f_equal res Hw)). rewrite Hw.
        cbn [res events final ret endpoints with_endpoints].
        rewrite lookup_insert_eq.
        eexists (take cap (x :: xs)), _. split; [reflexivity |].
        split; [reflexivity |].
        cbn [concat]. apply prefix_app_r, prefix_take.
    + apply (Hgo (with_out b None (ep_out b ++ x :: xs)) (x :: xs));
        [| reflexivity | reflexivity].
      unfold epWrite. rewrite Hb1, Hbc, Hcap. reflexivity.
Qed.

(** X8. Whatever the two endpoints do, [forward dst src] appends to what
    [dst] holds a prefix of the bytes that were pending at [src], in
    their order: no byte is invented, repeated or moved, also when the
    copy stops early on an error. *)
Theorem forward_delivers_a_prefix (dst src : handle) (s : State) (a b : endpoint) :
  src <> dst ->
  endpoints s !! src = Some a ->
  endpoints s !! dst = Some b ->
  exists w b',
    endpoints (final (forward dst src s)) !! dst = Some b'
    /\ ep_out b' = ep_out b ++ w
    /\ w `prefix_of` concat (ep_in a).
Proof.
  intros Hne Ha Hb. unfold forward.
  destruct (copyLoop_total dst src (S (pending src s)) s ltac:(lia))
    as (err & Hres & Hev & _).
  rewrite (bind_Ret (ioCopy dst src) _ s err Hres).
  change (ioCopy dst src s) with (copyLoop (S (pending src s)) dst src s).
  destruct (copyLoop_prefix dst src Hne (S (pending src s)) s a b Ha Hb)
    as (w & b' & Hl & Hout & Hpre).
  set (s1 := final (copyLoop (S (pending src s)) dst src s)) in *.
  assert (Hfin : final ((run match err with
                             | Some e => logPrintln [e]
                             | None => ret tt
                             end; epClose dst) s1)
                 = with_endpoints (alter with_closed dst (endpoints s1)) s1)
    by (destruct err; reflexivity).
  cbn [final]. rewrite Hfin. cbn [endpoints with_endpoints].
  rewrite lookup_alter_eq, Hl.
  exists w, (with_closed b'). split; [reflexivity | split; [exact Hout | exact Hpre]].
Qed.

Lemma forward_delivers_a_prefix_witness :
  let full := mkEndpoint [] None (Some 2%nat) [] false in
  let s := mkState 0 2 (<[1%nat := Sample.talking None]> {[ 0%nat := full ]})
             [] false in
  exists w b',
    endpoints (final (forward 0%nat 1%nat s)) !! 0%nat = Some b'
    /\ ep_out b' = [] ++ w
    /\ w `prefix_of` ["h"; "i"; "!"]%byte.
Proof.
  cbv zeta.
  apply (forward_delivers_a_prefix 0%nat 1%nat
           (mkState 0 2 (<[1%nat := Sample.talking None]>
                           {[ 0%nat := mkEndpoint [] None (Some 2%nat) [] false ]})
              [] false)
           (Sample.talking None) (mkEndpoint [] None (Some 2%nat) [] false));
    [discriminate | vm_compute; reflexivity ..].
Defined.

(** * The polling goroutine *)

Lemma slept_sends (ps : list AddrInfo) : slept (map ESend ps) = 0%Z.
Proof. induction ps as [| p ps IH]; [reflexivity | exact IH]. Qed.

(** X9. While the queries of the discovery collaborator succeed, the
    polling goroutine sleeps one minute after each of them and the
    channel receives, poll after poll and in the order found, every peer
    that is not this node: a peer found again by a later poll is pushed
    again. *)
Theorem polling_repeats_every_minute (env : Env) (rounds : nat) :
  forall s,
    (forall j, (j < rounds)%nat ->
               exists peers, find_peers env (j + clock s) Rendezvous = inr peers) ->
    let r := discoveryPoll env rounds s in
    res r = Ret tt
    /\ peerChan (final r) = peerChan s ++ polled env (clock s) rounds
    /\ slept (events r) = (Z.of_nat rounds * Minute)%Z
    /\ clock (final r) = (rounds + clock s)%nat.
Proof.
  induction rounds as [| n IH]; intros s Hall; cbv zeta.
  - cbn. rewrite app_nil_r. repeat split.
  - rewrite discoveryPoll_S.
    destruct (Hall 0%nat ltac:(lia)) as [peers Hp]. simpl in Hp. rewrite Hp.
    cbv zeta. cbn [res events final].
    destruct (IH (pushed (others env peers) (after_call s))) as (Hres & Hq & Hs & Hc).
    { intros j Hj. destruct (Hall (S j) ltac:(lia)) as [ps Hps].
      exists ps. cbn [pushed clock after_call]. rewrite Nat.add_succ_r. exact Hps. }
    rewrite Hres, Hq, Hc.
    cbn [pushed peerChan clock after_call].
    split; [reflexivity |]. split; [| split].
    + unfold polled. cbn [seq flat_map]. rewrite Hp, app_assoc. reflexivity.
    +       match goal with
      | |- slept (?e :: ?l) = _ => change (slept (e :: l)) with (slept l)
      end.
      rewrite slept_app, slept_sends.
      match goal with
      | |- context [slept (ESleep Minute :: ?tl)] =>
          change (slept (ESleep Minute :: tl)) with (Minute + slept tl)%Z
      end.
      rewrite Hs. lia.
    + lia.
Qed.

Lemma polling_repeats_every_minute_witness :
  peerChan (final (discoveryPoll Sample.all_well 2 Sample.start))
  = [Sample.peerA; Sample.peerB; Sample.peerA; Sample.peerB].
Proof.
  destruct (polling_repeats_every_minute Sample.all_well 2%nat Sample.start)
    as (_ & H & _).
  - intros j _. eexists. reflexivity.
  - rewrite H. vm_compute. reflexivity.
Defined.

(** X10. When a query of the discovery collaborator fails, after [k]
    polls that succeeded, the polling goroutine prints the error and the
    whole process exits with status 1; what the earlier polls pushed is
    on the channel. *)
Theorem polling_failure_exits (env : Env) (k : nat) (e : errmsg) :
  forall rounds s,
    (k < rounds)%nat ->
    (forall j, (j < k)%nat ->
               exists peers, find_peers env (j + clock s) Rendezvous = inr peers) ->
    find_peers env (k + clock s) Rendezvous = inl e ->
    let r := discoveryPoll env rounds s in
    res r = Exit 1
    /\ peerChan (final r) = peerChan s ++ polled env (clock s) k
    /\ last (events r) = Some (ELog e).
Proof.
  induction k as [| k IH]; intros rounds s Hk Hall Hfail; cbv zeta;
    (destruct rounds as [| n]; [lia |]); rewrite discoveryPoll_S.
  - simpl in Hfail. rewrite Hfail. cbn. rewrite app_nil_r. repeat split.
  - destruct (Hall 0%nat ltac:(lia)) as [peers Hp]. simpl in Hp. rewrite Hp.
    cbv zeta. cbn [res events final].
    destruct (IH n (pushed (others env peers) (after_call s)))
      as (Hres & Hq & Hlast).
    + lia.
    + intros j Hj. destruct (Hall (S j) ltac:(lia)) as [ps Hps].
      exists ps. cbn [pushed clock after_call]. rewrite Nat.add_succ_r. exact Hps.
    + cbn [pushed clock after_call]. rewrite Nat.add_succ_r. exact Hfail.
    + rewrite Hres, Hq. cbn [pushed peerChan clock after_call].
      split; [reflexivity |]. split.
      * unfold polled. cbn [seq flat_map]. rewrite Hp, app_assoc. reflexivity.
      * destruct (events (discoveryPoll env n (pushed (others env peers) (after_call s))))
          as [| ev tl] eqn:Hev; [discriminate Hlast |].
        rewrite <- Hlast.
        generalize (map ESend (others env peers)). intros l.
        assert (Hsplit : EFindPeers Rendezvous true :: l ++ ESleep Minute :: ev :: tl
                         = (EFindPeers Rendezvous true :: l ++ [ESleep Minute])
                             ++ ev :: tl)
          by (cbn; rewrite <- app_assoc; reflexivity).
        rewrite Hsplit, last_app.
        destruct (last (ev :: tl)); [reflexivity | discriminate Hlast].
Qed.

Lemma polling_failure_exits_witness :
  let env := mkEnv "QmSelf" [] (fun _ => 0%Z) (fun _ _ => None) (fun _ => None)
               (fun _ => None)
               (fun t _ => if decide (t < 1)%nat then inr [Sample.peerA; Sample.me]
                           else inl "failed to find any peer in table")
               Sample.dial_ok Sample.listen_ok (fun _ _ => inr Sample.idle)
               Sample.connect_ok Sample.stream_ok Sample.make_ok
               (fun _ _ => None) (fun _ _ _ => None)
               (fun a => inr a) (fun a => inr (mkAddrInfo a [a])) in
  res (discoveryPoll env 3 Sample.start) = Exit 1
  /\ peerChan (final (discoveryPoll env 3 Sample.start)) = [Sample.peerA].
Proof.
  cbv zeta.
  match goal with
  | |- res (discoveryPoll ?env _ _) = _ /\ _ =>
      destruct (polling_failure_exits env 1%nat "failed to find any peer in table"
                  3%nat Sample.start) as (H1 & H2 & _)
  end.
  - lia.
  - intros j Hj. destruct j as [| j]; [eexists; reflexivity | lia].
  - reflexivity.
  - split; [exact H1 |]. rewrite H2. vm_compute. reflexivity.
Defined.

(** * Addresses *)

(** X11. [parseAddress] returns only for a text that is a multiaddress
    and names a peer, silently and without a call to a collaborator;
    for any other text it prints one line and the whole process exits
    with status 1. *)
Theorem parseAddress_returns_or_exits (env : Env) (addr : string) (s : State) :
  let r := parseAddress env addr s in
  final r = s
  /\ (forall peerInfo,
        res r = Ret peerInfo <->
        exists parsed,
          new_multiaddr env addr = inr parsed
          /\ addr_info_from_p2p_addr env parsed = inr peerInfo)
  /\ ((exists peerInfo, res r = Ret peerInfo /\ events r = [])
      \/ (res r = Exit 1 /\ exists e, events r = [ELog e])).
Proof.
  cbv zeta. unfold parseAddress.
  destruct (new_multiaddr env addr) as [e | parsed] eqn:Hm.
  - split; [reflexivity |]. split.
    + intros peerInfo. split; [discriminate |].
      intros (m & Hm' & _). discriminate Hm'.
    + right. split; [reflexivity | eauto].
  - destruct (addr_info_from_p2p_addr env parsed) as [e | peerInfo] eqn:Hp.
    + split; [reflexivity |]. split.
      * intros peerInfo. split; [discriminate |].
        intros (m & Hm' & Hp'). injection Hm' as <-. congruence.
      * right. split; [reflexivity | eauto].
    + split; [reflexivity |]. split.
      * intros pi. split.
        -- intros H. injection H as <-. eauto.
        -- intros (m & Hm' & Hp'). injection Hm' as <-.
           cbn. congruence.
      * left. eauto.
Qed.

Lemma parseAddress_returns_or_exits_witness :
  res (parseAddress Sample.all_well "/ip4/10.0.0.1/tcp/10001/p2p/QmA" Sample.start)
  = Ret (mkAddrInfo "/ip4/10.0.0.1/tcp/10001/p2p/QmA"
           ["/ip4/10.0.0.1/tcp/10001/p2p/QmA"]).
Proof.
  destruct (parseAddress_returns_or_exits Sample.all_well
              "/ip4/10.0.0.1/tcp/10001/p2p/QmA" Sample.start) as (_ & H & _).
  apply H. eexists. split; reflexivity.
Defined.

(** X12. [addRelayAddress] never ends the process and calls no
    collaborator.  It keeps the identifier of the peer and every address
    the peer had, in order, and adds at most one address at the end: the
    circuit address through the relay, when a relay is given and that
    address is a multiaddress.  With no relay it changes and logs
    nothing; with a relay whose circuit address does not parse it logs a
    warning and changes nothing. *)
Theorem addRelayAddress_extends (env : Env) (relay : string) (p : AddrInfo)
    (s : State) :
  let r := addRelayAddress env relay p s in
  exists p',
    res r = Ret p'
    /\ final r = s
    /\ ID p' = ID p
    /\ Addrs p `prefix_of` Addrs p'
    /\ (length (Addrs p') <= S (length (Addrs p)))%nat
    /\ (relay = "" -> p' = p /\ events r = [])
    /\ (forall e,
          relay <> "" ->
          new_multiaddr env (relay +:+ "/p2p-circuit/p2p/" +:+ ID p) = inl e ->
          p' = p /\ events r = [ELog (Sprintln ["Warning:"; e])])
    /\ (forall maddr,
          relay <> "" ->
          new_multiaddr env (relay +:+ "/p2p-circuit/p2p/" +:+ ID p) = inr maddr ->
          Addrs p' = Addrs p ++ [maddr] /\ events r = []).
Proof.
  cbv zeta. unfold addRelayAddress.
  destruct (decide (relay = "")) as [Hr | Hr].
  - exists p. split; [reflexivity |]. split; [reflexivity |].
    split; [reflexivity |]. split; [reflexivity |]. split; [lia |].
    split; [intros _; split; reflexivity |].
    split; intros ? Hne; contradiction.
  - destruct (new_multiaddr env _) as [e | maddr] eqn:Hm.
    + exists p. split; [reflexivity |]. split; [reflexivity |].
      split; [reflexivity |]. split; [reflexivity |]. split; [lia |].
      split; [intros H; contradiction |].
      split; [intros e' _ He'; injection He' as <-; split; reflexivity |].
      intros m _ H. discriminate H.
    + exists (mkAddrInfo (ID p) (Addrs p ++ [maddr])).
      split; [reflexivity |]. split; [reflexivity |].
      split; [reflexivity |].
      split; [cbn; apply prefix_app_r; reflexivity |].
      split; [cbn; rewrite length_app; cbn; lia |].
      split; [intros H; contradiction |].
      split; [intros e _ H; discriminate H |].
      intros m _ H. injection H as <-. split; reflexivity.
Qed.

Lemma addRelayAddress_extends_witness :
  Addrs (relayed Sample.all_well "/ip4/1.2.3.4/tcp/1/p2p/QmR" Sample.peerA)
  = Addrs Sample.peerA ++ ["/ip4/1.2.3.4/tcp/1/p2p/QmR/p2p-circuit/p2p/QmA"].
Proof.
  destruct (addRelayAddress_extends Sample.all_well "/ip4/1.2.3.4/tcp/1/p2p/QmR"
              Sample.peerA Sample.start)
    as (p' & Hres & _ & _ & _ & _ & _ & _ & H).
  destruct (H "/ip4/1.2.3.4/tcp/1/p2p/QmR/p2p-circuit/p2p/QmA") as [Ha _];
    [discriminate | reflexivity |].
  injection Hres as <-. exact Ha.
Defined.

(** X13. [makeRandomHost] returns exactly when the host, the DHT and the
    bootstrap of the DHT all succeed; when one of them fails the process
    exits with status 1, and a host that cannot be created is the last
    call it makes. *)
Theorem makeRandomHost_returns_or_exits (env : Env) (s : State) :
  let r := makeRandomHost env s in
  let port := drawn env 10000 s in
  (res r = Ret tt <->
     libp2p_new env (S (clock s)) port = None
     /\ dht_new env (S (S (clock s))) = None
     /\ dht_bootstrap env (S (S (S (clock s)))) = None)
  /\ (res r = Ret tt \/ res r = Exit 1)
  /\ (forall e,
        libp2p_new env (S (clock s)) port = Some e ->
        events r = [ENewHost port false; ELog e]
        /\ clock (final r) = S (S (clock s))).
Proof.
  cbv zeta. unfold makeRandomHost.
  rewrite (bind_Ret (randIntn env 10000) _ _ _ eq_refl).
  rewrite randIntn_run. cbn [res events final].
  change (10000 + rand_raw env (clock s) `mod` 10000)%Z with (drawn env 10000 s).
  unfold bind, tick, logFatal, bind. cbn [res events final clock after_call].
  destruct (libp2p_new env _ _) as [e1 |] eqn:H1;
    [| destruct (dht_new env _) as [e2 |] eqn:H2;
       [| destruct (dht_bootstrap env _) as [e3 |] eqn:H3]];
    cbn [res events final emit osExit ret app clock after_call].
  - split; [split; [discriminate | intros [H _]; discriminate H] |].
    split; [right; reflexivity |].
    intros e He. injection He as <-. split; reflexivity.
  - split; [split; [discriminate | intros (_ & H & _); discriminate H] |].
    split; [right; reflexivity | intros e He; discriminate He].
  - split; [split; [discriminate | intros (_ & _ & H); discriminate H] |].
    split; [right; reflexivity | intros e He; discriminate He].
  - split; [split; [intros _; repeat split | reflexivity] |].
    split; [left; reflexivity | intros e He; discriminate He].
Qed.

Lemma makeRandomHost_returns_or_exits_witness :
  res (makeRandomHost Sample.all_well Sample.start) = Ret tt.
Proof.
  destruct (makeRandomHost_returns_or_exits Sample.all_well Sample.start)
    as (H & _).
  apply H. repeat split.
Defined.

(** * The order of the main loop *)

Lemma connects_in_app (tr1 tr2 : list event) :
  connects_in (tr1 ++ tr2) = connects_in tr1 ++ connects_in tr2.
Proof. unfold connects_in. apply flat_map_app. Qed.

Lemma connects_in_logs (tr : list event) :
  (forall ev, ev ∈ tr -> exists line, ev = ELog line) ->
  connects_in tr = [].
Proof.
  induction tr as [| e tr IH]; intros H; [reflexivity |].
  destruct (H e ltac:(apply list_elem_of_here)) as [line ->].
  cbn. apply IH. intros ev Hev. apply H, list_elem_of_further, Hev.
Qed.

(** X14. The loop of [main] takes the peers in the order the channel
    delivers them and tries to connect to each at most once, with the
    relay address added: the connects of a run are those of a first part
    of the peers received, and of all of them when the loop returns.
    The loop either returns or ends the process with status 1. *)
Theorem mainLoop_in_order (env : Env) (relay : string) (peers : list AddrInfo) :
  forall s,
    let r := mainLoop env relay peers s in
    exists k,
      (k <= length peers)%nat
      /\ connects_in (events r) = map (relayed env relay) (take k peers)
      /\ (res r = Ret tt -> k = length peers)
      /\ (res r = Ret tt \/ res r = Exit 1).
Proof.
  induction peers as [| p rest IH]; intros s; cbv zeta.
  - exists 0%nat.
    split; [reflexivity |]. split; [reflexivity |].
    split; [reflexivity | left; reflexivity].
  - rewrite mainLoop_cons. cbv zeta.
    pose proof (connects_in_logs _ (addRelayAddress_events env relay p s)) as Hw.
    assert (Hpre : forall tl,
               connects_in ((found p :: events (addRelayAddress env relay p s)) ++ tl)
               = connects_in tl).
    { intros tl.
      change (found p :: events (addRelayAddress env relay p s))
        with ([found p] ++ events (addRelayAddress env relay p s)).
      rewrite !connects_in_app, Hw. reflexivity. }
    destruct (host_connect env (clock s) (relayed env relay p));
      [| destruct (net_listen env _ _);
         [| destruct (cmd_run env _ _ _ _)]];
      cbn [res events final]; rewrite Hpre.
    + destruct (IH (after_call s)) as (k & Hk & Hc & Hret & Hres).
      exists (S k). cbn [length take map].
      rewrite connects_in_app.
      change (connects_in [EConnect (relayed env relay p) false; skipping])
        with [relayed env relay p].
      cbn [app].
      rewrite Hc. split; [lia |]. split; [reflexivity |].
      split; [| exact Hres].
      intros H. rewrite (Hret H). reflexivity.
    + exists 1%nat. cbn [length take map]. split; [lia |].
      split; [reflexivity |]. split; [discriminate | right; reflexivity].
    + exists 1%nat. cbn [length take map]. split; [lia |].
      split; [reflexivity |]. split; [discriminate | right; reflexivity].
    + match goal with
      | |- context [mainLoop env relay rest ?s1] =>
          destruct (IH s1) as (k & Hk & Hc & Hret & Hres)
      end.
      exists (S k). cbn [length take map].
      rewrite connects_in_app.
      match goal with
      | |- context [connects_in ?l ++ _] =>
          change (connects_in l) with [relayed env relay p]
      end.
      cbn [app].
      rewrite Hc. split; [lia |]. split; [reflexivity |].
      split; [| exact Hres].
      intros H. rewrite (Hret H). reflexivity.
Qed.

Lemma mainLoop_in_order_witness :
  length (connects_in (events (mainLoop Sample.all_well ""
                                 [Sample.peerA; Sample.peerB] Sample.start)))
  = 2%nat.
Proof.
  destruct (mainLoop_in_order Sample.all_well "" [Sample.peerA; Sample.peerB]
              Sample.start) as (k & _ & Hc & Hret & _).
  rewrite Hc, (Hret eq_refl). reflexivity.
Defined.

(** * The roles of [main] *)

Section Composition.
Context {A B : Type} (m : M A) (f : A -> M B) (s : State).

Lemma bind_Forall (P : event -> Prop) :
  Forall P (events (m s)) ->
  (forall a s', Forall P (events (f a s'))) ->
  Forall P (events (bind m f s)).
Proof.
  intros Hm Hf. unfold bind. destruct (res (m s)); cbn [events]; [| exact Hm ..].
  apply Forall_app. split; [exact Hm | apply Hf].
Qed.

Lemma bind_res :
  res (bind m f s)
  = match res (m s) with
    | Ret a => res (f a (final (m s)))
    | Exit c => Exit c
    | Blocked => Blocked
    end.
Proof. unfold bind. destruct (res (m s)); reflexivity. Qed.

Lemma bind_not_Ret :
  (forall a s' u, res (f a s') <> Ret u) ->
  forall u, res (bind m f s) <> Ret u.
Proof.
  intros Hf u. rewrite bind_res. destruct (res (m s)); [apply Hf | discriminate ..].
Qed.

Lemma bind_not_Blocked :
  res (m s) <> Blocked ->
  (forall a s', res (f a s') <> Blocked) ->
  res (bind m f s) <> Blocked.
Proof.
  intros Hm Hf. rewrite bind_res.
  destruct (res (m s)); [apply Hf | discriminate | contradiction].
Qed.

End Composition.

Lemma makeRandomHost_startup (env : Env) (s : State) :
  Forall (fun e => is_startup e = true) (events (makeRandomHost env s))
  /\ res (makeRandomHost env s) <> Blocked.
Proof.
  unfold makeRandomHost.
  rewrite (bind_Ret (randIntn env 10000) _ _ _ eq_refl).
  rewrite randIntn_run. cbn [res events final].
  unfold bind, tick, logFatal, bind. cbn [res events final clock after_call].
  destruct (libp2p_new env _ _); [| destruct (dht_new env _);
                                    [| destruct (dht_bootstrap env _)]];
    cbn; (split; [repeat constructor | discriminate]).
Qed.

Lemma printAddrs_startup (env : Env) (addrs : list string) :
  forall addr s,
    Forall (fun e => is_startup e = true) (events (printAddrs env addrs addr s))
    /\ exists last, res (printAddrs env addrs addr s) = Ret last.
Proof.
  induction addrs as [| a rest IH]; intros addr s.
  - split; [constructor | eexists; reflexivity].
  - cbn [printAddrs]. unfold bind at 1.
    cbn [res events final fmtPrintln emit app].
    destruct (IH (a +:+ "/p2p/" +:+ self_id env) s) as [Hev Hres].
    split; [constructor; [reflexivity | exact Hev] | exact Hres].
Qed.

Lemma connectToPeer_startup (env : Env) (addr : string) (s : State) :
  Forall (fun e => is_startup e = true) (events (connectToPeer env addr s))
  /\ res (connectToPeer env addr s) <> Blocked.
Proof.
  unfold connectToPeer, parseAddress.
  destruct (new_multiaddr env addr) as [e | parsed];
    [cbn; split; [repeat constructor | discriminate] |].
  destruct (addr_info_from_p2p_addr env parsed) as [e | peerInfo];
    [cbn; split; [repeat constructor | discriminate] |].
  unfold hostConnect, bind, tick. cbn [res events final ret].
  destruct (host_connect env (clock s) peerInfo); cbn;
    (split; [repeat constructor | discriminate]).
Qed.

(** X15. With [-R], whatever else is on the command line and whatever
    the collaborators do, [main] never returns: it ends the process
    during its start, or it blocks for ever.  A relay does nothing but
    the start: it registers no stream handler, advertises and queries
    nothing, binds no listener, runs no command and starts no
    goroutine. *)
Theorem relay_only_starts_and_blocks (env : Env) (flags : Flags) (rounds : nat)
    (s : State) :
  pureRelay flags = true ->
  Forall (fun e => is_startup e = true) (events (main env flags rounds s))
  /\ (forall u, res (main env flags rounds s) <> Ret u).
Proof.
  intros Hrelay. unfold main. rewrite Hrelay. split.
  - apply bind_Forall; [repeat constructor | intros _ s1].
    apply bind_Forall; [apply makeRandomHost_startup | intros _ s2].
    apply bind_Forall; [repeat constructor | intros _ s3].
    apply bind_Forall; [repeat constructor | intros _ s4].
    apply bind_Forall; [apply printAddrs_startup | intros addr s5].
    apply bind_Forall.
    { destruct (decide (relayPeer flags <> "")); [| constructor].
      apply bind_Forall; [repeat constructor | intros _ s6].
      apply bind_Forall; [apply connectToPeer_startup | intros _ s7].
      repeat constructor. }
    intros addr' s6.
    apply bind_Forall; [constructor | intros t s7].
    destruct (os_create env t _); [repeat constructor |].
    apply bind_Forall; [repeat constructor | intros _ s8].
    apply bind_Forall; [constructor | intros t' s9].
    destruct (io_write_string env t' _ _); repeat constructor.
  - do 6 (apply bind_not_Ret; intros ? ?).
    apply bind_not_Ret. intros t s7.
    destruct (os_create env t _); [intros u; discriminate |].
    apply bind_not_Ret. intros _ s8.
    apply bind_not_Ret. intros t' s9.
    destruct (io_write_string env t' _ _); intros u; discriminate.
Qed.

Lemma relay_only_starts_and_blocks_witness :
  res (main Sample.all_well (mkFlags "/ip4/10.0.0.1/tcp/10001/p2p/QmA" true "") 1
         Sample.start) = Blocked.
Proof.
  destruct (relay_only_starts_and_blocks Sample.all_well
              (mkFlags "/ip4/10.0.0.1/tcp/10001/p2p/QmA" true "") 1%nat Sample.start)
    as [_ H]; [reflexivity |].
  destruct (res (main Sample.all_well
                   (mkFlags "/ip4/10.0.0.1/tcp/10001/p2p/QmA" true "") 1
                   Sample.start)) as [u | c |] eqn:Hres.
  - exfalso. exact (H u eq_refl).
  - exfalso. vm_compute in Hres. discriminate Hres.
  - reflexivity.
Defined.

Lemma startup_not_discovery (tr : list event) :
  Forall (fun e => is_startup e = true) tr ->
  Forall (fun e => is_discovery e = false) tr.
Proof.
  intros H. eapply Forall_impl; [exact H |].
  intros e He. destruct e; try reflexivity; discriminate He.
Qed.

Lemma mainLoop_never_blocks (env : Env) (relay : string) (peers : list AddrInfo) :
  forall s, res (mainLoop env relay peers s) <> Blocked.
Proof.
  induction peers as [| p rest IH]; intros s; [discriminate |].
  rewrite mainLoop_cons. cbv zeta.
  destruct (host_connect env (clock s) (relayed env relay p));
    [| destruct (net_listen env _ _);
       [| destruct (cmd_run env _ _ _ _)]];
    cbn [res]; solve [apply IH | discriminate].
Qed.

Lemma rangePeerChan_events (env : Env) (relay : string) (s : State) :
  Forall (fun e => is_discovery e = false) (events (rangePeerChan env relay s)).
Proof.
  unfold rangePeerChan. apply bind_Forall.
  - apply Forall_forall. intros ev Hev. apply mainLoop_events in Hev.
    destruct Hev; reflexivity.
  - intros _ s'. destruct (peerChan_closed s); constructor.
Qed.

(** Once the channel is closed the loop over it ends. *)
Lemma rangePeerChan_closed (env : Env) (relay : string) (s : State) :
  peerChan_closed s = true ->
  res (rangePeerChan env relay s) <> Blocked.
Proof.
  intros Hc. unfold rangePeerChan. rewrite Hc.
  apply bind_not_Blocked; [apply mainLoop_never_blocks | discriminate].
Qed.

(** X16. In the client role, whatever the collaborators do, [main]
    never takes part in discovery (no advertisement, no query, no
    polling goroutine) and never blocks: it returns, once the loop over
    the peer of the command line is done, or the process exits. *)
Theorem client_never_discovers (env : Env) (flags : Flags) (rounds : nat)
    (s : State) :
  pureRelay flags = false ->
  remotePeer flags <> "" ->
  Forall (fun e => is_discovery e = false) (events (main env flags rounds s))
  /\ res (main env flags rounds s) <> Blocked.
Proof.
  intros Hrelay Hremote.
  assert (Hname : selectName flags = "client").
  { unfold selectName. rewrite Hrelay. rewrite decide_True by exact Hremote.
    reflexivity. }
  unfold main. rewrite Hname, Hrelay. split.
  - apply bind_Forall; [repeat constructor | intros _ s1].
    apply bind_Forall;
      [apply startup_not_discovery, makeRandomHost_startup | intros _ s2].
    apply bind_Forall; [repeat constructor | intros _ s3].
    apply bind_Forall; [repeat constructor | intros _ s4].
    apply bind_Forall;
      [apply startup_not_discovery, printAddrs_startup | intros addr s5].
    apply bind_Forall.
    { destruct (decide (relayPeer flags <> "")); [| constructor].
      apply bind_Forall; [repeat constructor | intros _ s6].
      apply bind_Forall;
        [apply startup_not_discovery, connectToPeer_startup | intros _ s7].
      repeat constructor. }
    intros addr' s6.
    apply bind_Forall; [constructor | intros t s7].
    destruct (os_create env t _); [repeat constructor |].
    apply bind_Forall; [repeat constructor | intros _ s8].
    apply bind_Forall; [constructor | intros t' s9].
    destruct (io_write_string env t' _ _); [repeat constructor |].
    apply bind_Forall; [repeat constructor | intros _ s10].
    apply bind_Forall; [repeat constructor | intros _ s11].
    apply bind_Forall; [repeat constructor | intros _ s12].
    apply bind_Forall; [| intros _ s13; apply rangePeerChan_events].
    rewrite decide_True by reflexivity.
    unfold parseAddress.
    destruct (new_multiaddr env _); [repeat constructor |].
    destruct (addr_info_from_p2p_addr env _); repeat constructor.
  - apply bind_not_Blocked; [discriminate | intros _ s1].
    apply bind_not_Blocked; [apply makeRandomHost_startup | intros _ s2].
    apply bind_not_Blocked; [discriminate | intros _ s3].
    apply bind_not_Blocked; [discriminate | intros _ s4].
    apply bind_not_Blocked.
    { destruct (printAddrs_startup env (host_addrs env) "" s4) as [_ [l ->]].
      discriminate. }
    intros addr s5.
    apply bind_not_Blocked.
    { destruct (decide (relayPeer flags <> "")); [| discriminate].
      apply bind_not_Blocked; [discriminate | intros _ s6].
      apply bind_not_Blocked; [apply connectToPeer_startup | intros _ s7].
      discriminate. }
    intros addr' s6.
    apply bind_not_Blocked; [discriminate | intros t s7].
    destruct (os_create env t _); [discriminate |].
    apply bind_not_Blocked; [discriminate | intros _ s8].
    apply bind_not_Blocked; [discriminate | intros t' s9].
    destruct (io_write_string env t' _ _); [discriminate |].
    apply bind_not_Blocked; [discriminate | intros _ s10].
    apply bind_not_Blocked; [discriminate | intros _ s11].
    apply bind_not_Blocked; [discriminate | intros _ s12].
    rewrite decide_True by reflexivity.
    rewrite bind_res. unfold parseAddress.
    destruct (new_multiaddr env _); [discriminate |].
    destruct (addr_info_from_p2p_addr env _); [discriminate |].
    cbn [bind ret send closeChan res final].
    apply rangePeerChan_closed. reflexivity.
Qed.

Lemma client_never_discovers_witness :
  res (main Sample.all_well (mkFlags "/ip4/10.0.0.1/tcp/10001/p2p/QmA" false "") 0
         Sample.start) <> Blocked.
Proof.
  apply (client_never_discovers Sample.all_well
           (mkFlags "/ip4/10.0.0.1/tcp/10001/p2p/QmA" false "") 0%nat Sample.start);
    [reflexivity | discriminate].
Defined.

Lemma keeps_chan_bind {A B : Type} (m : M A) (f : A -> M B) :
  keeps_chan m -> (forall a, keeps_chan (f a)) -> keeps_chan (bind m f).
Proof.
  intros Hm Hf s. unfold bind.
  destruct (res (m s)); cbn [final]; [rewrite Hf |..]; apply Hm.
Qed.

Lemma bind_not_Ret_open {A B : Type} (m : M A) (f : A -> M B) (s : State) :
  peerChan_closed s = false ->
  keeps_chan m ->
  (forall a s', peerChan_closed s' = false -> forall u, res (f a s') <> Ret u) ->
  forall u, res (bind m f s) <> Ret u.
Proof.
  intros Hs Hm Hf u. rewrite bind_res.
  destruct (res (m s)); [| discriminate ..].
  apply Hf. rewrite Hm. exact Hs.
Qed.

Lemma keeps_chan_makeRandomHost (env : Env) : keeps_chan (makeRandomHost env).
Proof.
  intros s. unfold makeRandomHost.
  rewrite (bind_Ret (randIntn env 10000) _ _ _ eq_refl).
  rewrite randIntn_run. cbn [res events final].
  unfold bind, tick, logFatal, bind. cbn [res events final clock after_call].
  destruct (libp2p_new env _ _); [| destruct (dht_new env _);
                                    [| destruct (dht_bootstrap env _)]];
    reflexivity.
Qed.

Lemma keeps_chan_printAddrs (env : Env) (addrs : list string) :
  forall addr, keeps_chan (printAddrs env addrs addr).
Proof.
  induction addrs as [| a rest IH]; intros addr s; [reflexivity |].
  cbn [printAddrs]. unfold bind at 1. cbn [res events final fmtPrintln emit].
  apply IH.
Qed.

Lemma keeps_chan_connectToPeer (env : Env) (addr : string) :
  keeps_chan (connectToPeer env addr).
Proof.
  intros s. unfold connectToPeer, parseAddress.
  destruct (new_multiaddr env addr) as [e | parsed]; [reflexivity |].
  destruct (addr_info_from_p2p_addr env parsed) as [e | peerInfo]; [reflexivity |].
  unfold hostConnect, bind, tick. cbn [res events final ret].
  destruct (host_connect env (clock s) peerInfo); reflexivity.
Qed.

Lemma keeps_chan_discoveryPoll (env : Env) (rounds : nat) :
  keeps_chan (discoveryPoll env rounds).
Proof.
  induction rounds as [| n IH]; intros s; [reflexivity |].
  rewrite discoveryPoll_S.
  destruct (find_peers env (clock s) Rendezvous); [reflexivity |].
  cbv zeta. cbn [final]. rewrite IH. reflexivity.
Qed.

(** X17. In the discovery role [main] never returns: started with the
    channel open, it ends the process on a failure or comes to wait for
    ever on the channel, which nothing closes. *)
Theorem discovery_role_never_returns (env : Env) (flags : Flags) (rounds : nat)
    (s : State) :
  pureRelay flags = false ->
  remotePeer flags = "" ->
  peerChan_closed s = false ->
  forall u, res (main env flags rounds s) <> Ret u.
Proof.
  intros Hrelay Hremote Hopen.
  assert (Hname : selectName flags = "server").
  { unfold selectName. rewrite Hrelay, Hremote. reflexivity. }
  unfold main. rewrite Hname, Hrelay.
  apply bind_not_Ret_open; [exact Hopen | intros ?; reflexivity | intros _ s1 H1].
  apply bind_not_Ret_open;
    [exact H1 | apply keeps_chan_makeRandomHost | intros _ s2 H2].
  apply bind_not_Ret_open; [exact H2 | intros ?; reflexivity | intros _ s3 H3].
  apply bind_not_Ret_open; [exact H3 | intros ?; reflexivity | intros _ s4 H4].
  apply bind_not_Ret_open;
    [exact H4 | apply keeps_chan_printAddrs | intros addr s5 H5].
  apply bind_not_Ret_open; [exact H5 | | intros addr' s6 H6].
  { destruct (decide (relayPeer flags <> "")); [| intros ?; reflexivity].
    apply keeps_chan_bind; [intros ?; reflexivity | intros _].
    apply keeps_chan_bind; [apply keeps_chan_connectToPeer | intros _].
    intros ?; reflexivity. }
  apply bind_not_Ret_open; [exact H6 | intros ?; reflexivity | intros t s7 H7].
  destruct (os_create env t _); [intros u; discriminate |].
  apply bind_not_Ret_open; [exact H7 | intros ?; reflexivity | intros _ s8 H8].
  apply bind_not_Ret_open; [exact H8 | intros ?; reflexivity | intros t' s9 H9].
  destruct (io_write_string env t' _ _); [intros u; discriminate |].
  apply bind_not_Ret_open; [exact H9 | intros ?; reflexivity | intros _ s10 H10].
  apply bind_not_Ret_open; [exact H10 | intros ?; reflexivity | intros _ s11 H11].
  apply bind_not_Ret_open; [exact H11 | intros ?; reflexivity | intros _ s12 H12].
  apply bind_not_Ret_open; [exact H12 | | intros _ s13 H13].
  { destruct (decide ("server" = "client")) as [Heq | _]; [discriminate Heq |].
    apply keeps_chan_bind; [intros ?; reflexivity | intros _].
    apply keeps_chan_discoveryPoll. }
  unfold rangePeerChan. rewrite H13.
  apply bind_not_Ret. intros _ s14 u. discriminate.
Qed.

Lemma discovery_role_never_returns_witness :
  res (main Sample.all_well (mkFlags "" false "") 2 Sample.start) <> Ret tt.
Proof.
  apply (discovery_role_never_returns Sample.all_well (mkFlags "" false "")
           2%nat Sample.start); reflexivity.
Defined.

(** * The address file *)

Lemma bind_Forall_Ret {A B : Type} (m : M A) (f : A -> M B) (s : State)
    (P : event -> Prop) :
  Forall P (events (m s)) ->
  (forall a, res (m s) = Ret a -> Forall P (events (f a (final (m s))))) ->
  Forall P (events (bind m f s)).
Proof.
  intros Hm Hf. unfold bind.
  destruct (res (m s)) as [a | c |] eqn:Hres; cbn [events]; [| exact Hm ..].
  apply Forall_app. split; [exact Hm | apply Hf; reflexivity].
Qed.

Lemma fileless_touches (file text : string) (tr : list event) :
  Forall (fun e => is_fileless e = true) tr -> Forall (touches_only file text) tr.
Proof.
  intros H. eapply Forall_impl; [exact H |].
  intros e He. destruct e; try exact I; discriminate He.
Qed.

Lemma makeRandomHost_fileless (env : Env) (s : State) :
  Forall (fun e => is_fileless e = true) (events (makeRandomHost env s)).
Proof.
  unfold makeRandomHost.
  rewrite (bind_Ret (randIntn env 10000) _ _ _ eq_refl).
  rewrite randIntn_run. cbn [res events final].
  unfold bind, tick, logFatal, bind. cbn [res events final clock after_call].
  destruct (libp2p_new env _ _); [| destruct (dht_new env _);
                                    [| destruct (dht_bootstrap env _)]];
    cbn; repeat constructor.
Qed.

Lemma printAddrs_run (env : Env) (addrs : list string) :
  forall addr s,
    res (printAddrs env addrs addr s)
    = Ret (foldl (fun _ a => a +:+ "/p2p/" +:+ self_id env) addr addrs)
    /\ Forall (fun e => is_fileless e = true) (events (printAddrs env addrs addr s)).
Proof.
  induction addrs as [| a rest IH]; intros addr s.
  - split; [reflexivity | constructor].
  - cbn [printAddrs foldl]. unfold bind at 1 2.
    cbn [res events final fmtPrintln emit app].
    destruct (IH (a +:+ "/p2p/" +:+ self_id env) s) as [Hres Hev].
    split; [exact Hres | constructor; [reflexivity | exact Hev]].
Qed.

Lemma connectToPeer_fileless (env : Env) (addr : string) (s : State) :
  Forall (fun e => is_fileless e = true) (events (connectToPeer env addr s)).
Proof.
  unfold connectToPeer, parseAddress.
  destruct (new_multiaddr env addr) as [e | parsed]; [cbn; repeat constructor |].
  destruct (addr_info_from_p2p_addr env parsed) as [e | peerInfo];
    [cbn; repeat constructor |].
  unfold hostConnect, bind, tick. cbn [res events final ret].
  destruct (host_connect env (clock s) peerInfo); cbn; repeat constructor.
Qed.

Lemma discoveryPoll_fileless (env : Env) (rounds : nat) :
  forall s, Forall (fun e => is_fileless e = true) (events (discoveryPoll env rounds s)).
Proof.
  induction rounds as [| n IH]; intros s; [constructor |].
  rewrite discoveryPoll_S.
  destruct (find_peers env (clock s) Rendezvous); [cbn; repeat constructor |].
  cbv zeta. cbn [events]. constructor; [reflexivity |].
  apply Forall_app. split.
  - apply Forall_forall. intros e He. apply list_elem_of_fmap in He as (p & -> & _).
    reflexivity.
  - constructor; [reflexivity | apply IH].
Qed.

Lemma rangePeerChan_fileless (env : Env) (relay : string) (s : State) :
  Forall (fun e => is_fileless e = true) (events (rangePeerChan env relay s)).
Proof.
  unfold rangePeerChan. apply bind_Forall.
  - apply Forall_forall. intros ev Hev. apply mainLoop_events in Hev.
    destruct Hev; reflexivity.
  - intros _ s'. destruct (peerChan_closed s); constructor.
Qed.

(** X18. In every run of [main], whatever the role, the only file that
    is created or written is [local/<role>.p2p], and the only text
    written to it is the circuit address through the relay when a relay
    is given, else the last address of the host followed by the
    identifier of the node (the empty text when the host has none). *)
Theorem main_writes_its_address (env : Env) (flags : Flags) (rounds : nat)
    (s : State) :
  let file := "local/" +:+ selectName flags +:+ ".p2p" in
  (forall f ok, ECreate f ok ∈ events (main env flags rounds s) -> f = file)
  /\ (forall f text ok,
        EWriteString f text ok ∈ events (main env flags rounds s) ->
        f = file /\ text = advertised env flags).
Proof.
  cbv zeta.
  assert (H : Forall (touches_only ("local/" +:+ selectName flags +:+ ".p2p")
                        (advertised env flags))
                (events (main env flags rounds s))).
  { unfold main.
    apply bind_Forall; [repeat constructor | intros _ s1].
    apply bind_Forall;
      [apply fileless_touches, makeRandomHost_fileless | intros _ s2].
    apply bind_Forall; [repeat constructor | intros _ s3].
    apply bind_Forall; [repeat constructor | intros _ s4].
    destruct (printAddrs_run env (host_addrs env) "" s4) as [Hlast Hquiet].
    apply bind_Forall_Ret; [apply fileless_touches, Hquiet | intros addr Haddr].
    rewrite Hlast in Haddr. injection Haddr as <-.
    apply bind_Forall_Ret.
    { destruct (decide (relayPeer flags <> "")); [| constructor].
      apply bind_Forall; [repeat constructor | intros _ s6].
      apply bind_Forall;
        [apply fileless_touches, connectToPeer_fileless | intros _ s7].
      repeat constructor. }
    intros addr' Haddr'.
    assert (Htext : addr' = advertised env flags).
    { unfold advertised. destruct (decide (relayPeer flags <> "")).
      - rewrite bind_res in Haddr'. cbn [logPrintln emit res final] in Haddr'.
        rewrite bind_res in Haddr'.
        destruct (res (connectToPeer env (relayPeer flags) _));
          [| discriminate Haddr' ..].
        cbn in Haddr'. injection Haddr' as <-. reflexivity.
      - injection Haddr' as <-. reflexivity. }
    subst addr'.
    apply bind_Forall; [constructor | intros t s7].
    destruct (os_create env t _); [repeat constructor |].
    apply bind_Forall; [repeat constructor | intros _ s8].
    apply bind_Forall; [constructor | intros t' s9].
    destruct (io_write_string env t' _ _); [repeat constructor |].
    apply bind_Forall; [repeat constructor | intros _ s10].
    apply bind_Forall; [repeat constructor | intros _ s11].
    destruct (pureRelay flags); [repeat constructor |].
    apply bind_Forall; [repeat constructor | intros _ s12].
    apply bind_Forall;
      [| intros _ s13; apply fileless_touches, rangePeerChan_fileless].
    destruct (decide (selectName flags = "client")).
    - unfold parseAddress.
      destruct (new_multiaddr env _); [repeat constructor |].
      destruct (addr_info_from_p2p_addr env _); repeat constructor.
    - apply bind_Forall; [repeat constructor | intros _ s13].
      apply fileless_touches, discoveryPoll_fileless. }
  rewrite Forall_forall in H. split.
  - intros f ok Hin. exact (H _ Hin).
  - intros f text ok Hin. exact (H _ Hin).
Qed.

Lemma main_writes_its_address_witness :
  "local/server.p2p" = "local/" +:+ selectName (mkFlags "" false "") +:+ ".p2p"
  /\ "/ip4/0.0.0.0/tcp/12345/p2p/QmSelf"
     = advertised Sample.all_well (mkFlags "" false "").
Proof.
  destruct (main_writes_its_address Sample.all_well (mkFlags "" false "") 0%nat
              Sample.start) as [_ H].
  apply (H "local/server.p2p" "/ip4/0.0.0.0/tcp/12345/p2p/QmSelf" true).
  vm_compute. do 6 apply list_elem_of_further. apply list_elem_of_here.
Defined.

(** * One listener and one backend for each peer *)

Lemma listeners_in_app (tr1 tr2 : list event) :
  listeners_in (tr1 ++ tr2) = listeners_in tr1 ++ listeners_in tr2.
Proof. unfold listeners_in. apply flat_map_app. Qed.

Lemma launched_in_app (tr1 tr2 : list event) :
  launched_in (tr1 ++ tr2) = (launched_in tr1 + launched_in tr2)%nat.
Proof. unfold launched_in. rewrite List.filter_app, length_app. reflexivity. Qed.

Lemma logs_bind_nothing (tr : list event) :
  (forall ev, ev ∈ tr -> exists line, ev = ELog line) ->
  listeners_in tr = [] /\ launched_in tr = 0%nat.
Proof.
  induction tr as [| e tr IH]; intros H; [split; reflexivity |].
  destruct (H e ltac:(apply list_elem_of_here)) as [line ->].
  apply IH. intros ev Hev. apply H, list_elem_of_further, Hev.
Qed.

(** X19. While every connect, every bind and every backend succeeds,
    the loop of [main] binds one new listener and runs one backend to
    its end for each peer it receives, in order, and then returns: a
    peer that is received twice gets two listeners and two backends,
    and no listener is ever reused. *)
Theorem one_listener_per_peer (env : Env) (relay : string) (peers : list AddrInfo) :
  (forall t p, host_connect env t p = None) ->
  (forall t port, net_listen env t port = None) ->
  (forall t name args envv, cmd_run env t name args envv = None) ->
  forall s,
    let r := mainLoop env relay peers s in
    res r = Ret tt
    /\ listeners_in (events r) = seq (next_handle s) (length peers)
    /\ launched_in (events r) = length peers
    /\ connects_in (events r) = map (relayed env relay) peers
    /\ next_handle (final r) = (length peers + next_handle s)%nat.
Proof.
  intros Hconn Hlisten Hrun.
  induction peers as [| p rest IH]; intros s; cbv zeta.
  - repeat split.
  - rewrite mainLoop_cons. cbv zeta. rewrite Hconn, Hlisten, Hrun.
    cbn [res events final].
    match goal with
    | |- context [mainLoop env relay rest ?s1] =>
        destruct (IH s1) as (Hres & Hl & Hx & Hc & Hn)
    end.
    destruct (logs_bind_nothing _ (addRelayAddress_events env relay p s))
      as [Hwl Hwx].
    pose proof (connects_in_logs _ (addRelayAddress_events env relay p s)) as Hwc.
    change (found p :: events (addRelayAddress env relay p s))
      with ([found p] ++ events (addRelayAddress env relay p s)).
    rewrite !listeners_in_app, !launched_in_app, !connects_in_app.
    rewrite Hwl, Hwx, Hwc, Hl, Hx, Hc, Hn, Hres.
    cbn [after_call after_fresh next_handle length seq map].
    split; [reflexivity |]. split; [reflexivity |]. split; [reflexivity |].
    split; [reflexivity | lia].
Qed.

Lemma one_listener_per_peer_witness :
  listeners_in (events (mainLoop Sample.all_well ""
                          [Sample.peerA; Sample.peerA] Sample.start))
  = [0%nat; 1%nat].
Proof.
  assert (Hconn : forall t p, host_connect Sample.all_well t p = None)
    by reflexivity.
  assert (Hlisten : forall t port, net_listen Sample.all_well t port = None)
    by reflexivity.
  assert (Hrun : forall t name args envv,
             cmd_run Sample.all_well t name args envv = None)
    by reflexivity.
  destruct (one_listener_per_peer Sample.all_well "" [Sample.peerA; Sample.peerA]
              Hconn Hlisten Hrun Sample.start) as (_ & H & _).
  exact H.
Defined.

(** X20. The text [PORT=<port>] given to a backend names one port: two
    ports with the same text are the same port. *)
Theorem fmtPort_names_one_port (port port' : Z) :
  fmtPort port = fmtPort port' -> port = port'.
Proof.
  unfold fmtPort. intros H. cbn in H.
  injection H as H. exact (pretty_Z_inj _ _ H).
Qed.

Lemma fmtPort_names_one_port_witness : 20000%Z = 20000%Z.
Proof. apply (fmtPort_names_one_port 20000 20000). reflexivity. Defined.
